(** * lex-pr-runner: plan validation and the levelled merge-order engine

    A shallow embedding of [legacy/py-prototype/toposort.py] (the
    merge-order engine, [levels]) and of [lex_pr/plan_schema.py] (the
    structural fallback validator, [_fallback_validate]), with the
    properties the specification states about them.

    Conventions of the embedding.
    - A Python [str] is a [string]; a character of the string stands for
      one code point below 256, so that the order [String.compare] is the
      order Python's [sorted] uses on [str] (code point by code point).
    - A Python [dict] with [str] keys is a [gmap string _]; [d[k]] raises
      [KeyError] on a missing key and is modelled by [getitem].
    - A Python [int] is a [Z].
    - Exceptions are the [Raise] results of the [result] monad. *)

From Stdlib Require Import ZArith Ascii String DecimalString OrdersEx.
From stdpp Require Import gmap strings list fin_maps sorting relations.

(** ** Exceptions and results *)

Inductive exn : Type :=
  | KeyError (msg : string)
  | CycleError (msg : string).

Inductive result (A : Type) : Type :=
  | Ok (a : A)
  | Raise (e : exn).
Arguments Ok {A} a.
Arguments Raise {A} e.

#[global] Instance result_ret : MRet result := λ A a, Ok a.
#[global] Instance result_bind : MBind result := λ A B f r,
  match r with
  | Ok a => f a
  | Raise e => Raise e
  end.

(** [for x in l: a = f(a, x)] where [f] may raise. *)
Fixpoint foldM {A B : Type} (f : A → B → result A) (a : A) (l : list B)
  : result A :=
  match l with
  | [] => Ok a
  | x :: l' => a' ← f a x; foldM f a' l'
  end.

(** [d[k]]: the value at a key, [KeyError(k)] when the key is missing. *)
Definition getitem {V : Type} (d : gmap string V) (k : string) : result V :=
  match d !! k with
  | Some v => Ok v
  | None => Raise (KeyError k)
  end.

(** ** The order of [sorted] on strings *)

Definition str_le (a b : string) : Prop := String.leb a b = true.

#[global] Instance str_le_dec : RelDecision str_le.
Proof. intros a b. unfold str_le. apply _. Defined.

(** [sorted(l)] on a list of strings. *)
Definition sorted (l : list string) : list string := merge_sort str_le l.

(** ** The merge-order engine (toposort.py) *)

(** An item as the engine reads it: [name] and [deps] may be absent. *)
Record Item : Type := mkItem {
  name : option string;
  repo : string;
  branch : string;
  deps : option (list string)
}.

#[global] Instance Item_eq_dec : EqDecision Item.
Proof. solve_decision. Defined.

(** [item.get("name") or f"{item['repo']}@{item['branch']}"]: the empty
    string is falsy, so an empty name falls through to the derived one. *)
Definition _name_of (item : Item) : string :=
  let derived := repo item +:+ "@" +:+ branch item in
  match name item with
  | Some s => if decide (s = "") then derived else s
  | None => derived
  end.

(** [it.get("deps", []) or []] *)
Definition deps_of (it : Item) : list string := default [] (deps it).

(** [f"unknown dep '{d}' for item '{me}'"] *)
Definition unknown_dep_msg (d me : string) : string :=
  "unknown dep '" +:+ d +:+ "' for item '" +:+ me +:+ "'".

(** The graph under construction: [children] and [in_deg]. *)
Definition graph : Type := gmap string (list string) * gmap string Z.

(** The body of [for d in deps] (lines 27-30). *)
Definition add_dep (name_set : gset string) (me : string)
    (g : graph) (d : string) : result graph :=
  let '(children, in_deg) := g in
  if decide (d ∈ name_set) then
    let children' := <[d := default [] (children !! d) ++ [me]]> children in
    deg ← getitem in_deg me;
    Ok (children', <[me := (deg + 1)%Z]> in_deg)
  else Raise (KeyError (unknown_dep_msg d me)).

(** The body of [for it in items] (lines 25-30). *)
Definition add_item (name_set : gset string) (g : graph) (it : Item)
  : result graph :=
  foldM (add_dep name_set (_name_of it)) g (deps_of it).

(** Lines 19-30: names, the name set, and the graph. *)
Definition build (items : list Item) : result graph :=
  let names := _name_of <$> items in
  let name_set : gset string := list_to_set names in
  let in_deg : gmap string Z := list_to_map ((λ n, (n, 0%Z)) <$> names) in
  foldM (add_item name_set) (∅, in_deg) items.

(** The body of [for c in sorted(children.get(n, []))] (lines 40-42). *)
Definition visit_child (st : gmap string Z * list string) (c : string)
  : result (gmap string Z * list string) :=
  let '(in_deg, q) := st in
  deg ← getitem in_deg c;
  let in_deg' := <[c := (deg - 1)%Z]> in_deg in
  deg' ← getitem in_deg' c;
  if decide (deg' = 0%Z) then Ok (in_deg', q ++ [c]) else Ok (in_deg', q).

(** The body of [for n in this_level] (lines 39-42). *)
Definition visit_node (children : gmap string (list string))
    (st : gmap string Z * list string) (n : string)
  : result (gmap string Z * list string) :=
  foldM visit_child st (sorted (default [] (children !! n))).

(** One turn of the [while q] loop after [q.clear()] (lines 38-42). *)
Definition process_level (children : gmap string (list string))
    (in_deg : gmap string Z) (this_level : list string)
  : result (gmap string Z * list string) :=
  foldM (visit_node children) (in_deg, []) this_level.

(** The [while q] loop (lines 34-42); [None] when [fuel] turns do not
    empty the queue. *)
Fixpoint kahn_loop (fuel : nat) (children : gmap string (list string))
    (in_deg : gmap string Z) (q : list string) (res : list (list string))
  : option (result (gmap string Z * list (list string))) :=
  match fuel with
  | O => None
  | S fuel' =>
      match q with
      | [] => Some (Ok (in_deg, res))
      | _ :: _ =>
          let this_level := sorted q in
          match process_level children in_deg this_level with
          | Raise e => Some (Raise e)
          | Ok (in_deg', q') =>
              kahn_loop fuel' children in_deg' q' (res ++ [this_level])
          end
      end
  end.

(** [[n for n, deg in in_deg.items() if deg == 0]]; the order of the
    keys is immaterial, the list is sorted before use. *)
Definition zero_in_degree (in_deg : gmap string Z) : list string :=
  (filter (λ kv, kv.2 = 0%Z) (map_to_list in_deg)).*1.

(** [any(deg > 0 for deg in in_deg.values())] *)
Definition any_positive (in_deg : gmap string Z) : bool :=
  bool_decide (Exists (λ kv, (0 < kv.2)%Z) (map_to_list in_deg)).

Definition levels_fuel (fuel : nat) (items : list Item)
  : option (result (list (list string))) :=
  match build items with
  | Raise e => Some (Raise e)
  | Ok (children, in_deg) =>
      let q := sorted (zero_in_degree in_deg) in
      match kahn_loop fuel children in_deg q [] with
      | None => None
      | Some (Raise e) => Some (Raise e)
      | Some (Ok (in_deg', res)) =>
          if any_positive in_deg'
          then Some (Raise (CycleError "dependency cycle detected"))
          else Some (Ok res)
      end
  end.

(** [levels(items)]: the loop runs at most once per name and once more. *)
Definition levels (items : list Item) : option (result (list (list string))) :=
  levels_fuel (S (length items)) items.

(** ** The plan validator (plan_schema.py) *)

(** A parsed JSON document.  A number is kept as an integer: no check of
    the validator tells one number from another. *)
#[local] Set Warnings "-register-all".
Inductive json : Type :=
  | JNull
  | JBool (b : bool)
  | JNum (n : Z)
  | JStr (s : string)
  | JArr (l : list json)
  | JObj (o : gmap string json).
#[local] Set Warnings "register-all".

(** The characters [str.strip()] removes, among the code points below
    256: U+0009..U+000D, U+001C..U+0020, U+0085 and U+00A0. *)
Definition is_py_space (c : ascii) : bool :=
  let n := N_of_ascii c in
  ((9 <=? n) && (n <=? 13) || (28 <=? n) && (n <=? 32)
   || (n =? 133) || (n =? 160))%N.

Fixpoint lstrip (s : string) : string :=
  match s with
  | String c s' => if is_py_space c then lstrip s' else s
  | EmptyString => EmptyString
  end.

Definition rstrip (s : string) : string := String.rev (lstrip (String.rev s)).

(** [s.strip()] *)
Definition strip (s : string) : string := rstrip (lstrip s).

(** [str(idx)] in an f-string, for a list index. *)
Definition str_of_nat (n : nat) : string :=
  NilEmpty.string_of_uint (Nat.to_uint n).

(** [req in d and isinstance(d[req], str) and d[req].strip()] as a truth
    value: the negation of the test of lines 40, 50 and 64. *)
Definition nonempty_str (v : option json) : bool :=
  match v with
  | Some (JStr s) => bool_decide (strip s ≠ "")
  | _ => false
  end.

(** [key not in d or isinstance(d[key], str)] *)
Definition opt_str (v : option json) : bool :=
  match v with
  | None | Some (JStr _) => true
  | Some _ => false
  end.

(** [isinstance(d, str) and d.strip()] as a truth value (line 55). *)
Definition dep_ok (d : json) : bool :=
  match d with
  | JStr s => bool_decide (strip s ≠ "")
  | _ => false
  end.

(** [key not in it], or the list is an array of non-blank strings
    (lines 54-55). *)
Definition deps_ok (v : option json) : bool :=
  match v with
  | None => true
  | Some (JArr ds) => forallb dep_ok ds
  | Some _ => false
  end.

(** [isinstance(e, dict) and all(isinstance(k, str) and isinstance(v, str)
    for k, v in e.items())]; every key of the map is a string. *)
Definition env_ok (v : option json) : bool :=
  match v with
  | None => true
  | Some (JObj e) =>
      forallb (λ kv, match kv.2 with JStr _ => true | _ => false end)
              (map_to_list e)
  | Some _ => false
  end.

Definition gate_path (idx gidx : nat) : string :=
  "items/" +:+ str_of_nat idx +:+ "/gates/" +:+ str_of_nat gidx.

(** The body of [for gidx, g in enumerate(it["gates"])] (lines 61-70):
    [Some msg] is [return False, msg], [None] falls through. *)
Definition check_gate (idx gidx : nat) (g : json) : option string :=
  match g with
  | JObj o =>
      if negb (nonempty_str (o !! "name")) then
        Some (gate_path idx gidx +:+ "/name: required non-empty string")
      else if negb (nonempty_str (o !! "run")) then
        Some (gate_path idx gidx +:+ "/run: required non-empty string")
      else if negb (opt_str (o !! "cwd")) then
        Some (gate_path idx gidx +:+ "/cwd: expected string")
      else if negb (env_ok (o !! "env")) then
        Some (gate_path idx gidx +:+ "/env: expected object of string->string")
      else None
  | _ => Some (gate_path idx gidx +:+ ": expected object")
  end.

Fixpoint check_gates (idx gidx : nat) (gs : list json) : option string :=
  match gs with
  | [] => None
  | g :: gs' =>
      match check_gate idx gidx g with
      | Some msg => Some msg
      | None => check_gates idx (S gidx) gs'
      end
  end.

(** Lines 57-70. *)
Definition check_gates_field (idx : nat) (v : option json) : option string :=
  match v with
  | None => None
  | Some (JArr gs) => check_gates idx 0 gs
  | Some _ => Some ("items/" +:+ str_of_nat idx +:+ "/gates: expected array")
  end.

(** [it[key]] once it is known to be a string. *)
Definition str_at (o : gmap string json) (key : string) : string :=
  match o !! key with
  | Some (JStr s) => s
  | _ => ""
  end.

(** Line 71, [it.get("name") or f"{it['repo']}@{it['branch']}"], where it
    is reached: [name] is absent or a string, [repo] and [branch] are
    strings. *)
Definition resolved_name (o : gmap string json) : string :=
  let derived := str_at o "repo" +:+ "@" +:+ str_at o "branch" in
  match o !! "name" with
  | Some (JStr s) => if decide (s = "") then derived else s
  | _ => derived
  end.

(** The body of [for idx, it in enumerate(data["items"])] (lines 47-72):
    [inl msg] is [return False, msg], [inr n] is the name appended to
    [item_names]. *)
Definition check_item (idx : nat) (it : json) : string + string :=
  match it with
  | JObj o =>
      let at_idx := "items/" +:+ str_of_nat idx in
      if negb (nonempty_str (o !! "repo")) then
        inl (at_idx +:+ "/repo: required non-empty string")
      else if negb (nonempty_str (o !! "branch")) then
        inl (at_idx +:+ "/branch: required non-empty string")
      else if negb (opt_str (o !! "name")) then
        inl (at_idx +:+ "/name: expected string")
      else if negb (deps_ok (o !! "deps")) then
        inl (at_idx +:+ "/deps: expected array of strings")
      else
        match check_gates_field idx (o !! "gates") with
        | Some msg => inl msg
        | None => inr (resolved_name o)
        end
  | _ => inl ("items/" +:+ str_of_nat idx +:+ ": expected object")
  end.

(** The loop of lines 46-72 from index [idx] on, with the names
    collected so far. *)
Fixpoint check_items (idx : nat) (items : list json) (item_names : list string)
  : string + list string :=
  match items with
  | [] => inr item_names
  | it :: items' =>
      match check_item idx it with
      | inl msg => inl msg
      | inr n => check_items (S idx) items' (item_names ++ [n])
      end
  end.

(** Lines 38-72: every check before the uniqueness check; [inr names] is
    the list [item_names] the loop leaves. *)
Definition shape_checks (data : json) : string + list string :=
  match data with
  | JObj o =>
      if negb (nonempty_str (o !! "target")) then
        inl "target: required non-empty string"
      else
        match o !! "items" with
        | Some (JArr items) => check_items 0 items []
        | _ => inl "items: required array"
        end
  | _ => inl "<root>: expected object"
  end.

Definition duplicate_msg : string :=
  "items: duplicate item names (explicit or derived)".

(** [len(set(item_names)) != len(item_names)] *)
Definition has_duplicates (item_names : list string) : bool :=
  bool_decide (size (list_to_set item_names : gset string)
               ≠ length item_names).

Definition _fallback_validate (data : json) : bool * option string :=
  match shape_checks data with
  | inl msg => (false, Some msg)
  | inr item_names =>
      if has_duplicates item_names then (false, Some duplicate_msg)
      else (true, None)
  end.

(** ** Vocabulary of the specification *)

(** The resolved names, in item order (line 19). *)
Definition names_of (items : list Item) : list string := _name_of <$> items.

Definition unique_names (items : list Item) : Prop := NoDup (names_of items).

#[global] Instance unique_names_dec items : Decision (unique_names items).
Proof. unfold unique_names. apply _. Defined.

(** Every entry of every [deps] is the resolved name of some item. *)
Definition deps_resolve (items : list Item) : Prop :=
  Forall (λ it, Forall (λ d, d ∈ names_of items) (deps_of it)) items.

#[global] Instance deps_resolve_dec items : Decision (deps_resolve items).
Proof. unfold deps_resolve. apply _. Defined.

(** The dependency edge [u → v]: some item named [v] lists [u]. *)
Definition edge (items : list Item) (u v : string) : Prop :=
  ∃ it, it ∈ items ∧ _name_of it = v ∧ u ∈ deps_of it.

Definition has_cycle (items : list Item) : Prop := ∃ c, tc (edge items) c c.

Definition acyclic (items : list Item) : Prop := ∀ c, ¬ tc (edge items) c c.

(** All the [deps] entries of the items named [c], in reading order. *)
Definition all_deps (items : list Item) (c : string) : list string :=
  items ≫= (λ it, if decide (_name_of it = c) then deps_of it else []).
Arguments all_deps : simpl never.

(** How many [deps] entries of [c] are not among the names in [P]. *)
Definition remaining (items : list Item) (P : list string) (c : string) : nat :=
  length (filter (λ d, d ∉ P) (all_deps items c)).

(** The index of the first level that contains [c]. *)
Fixpoint level_of (res : list (list string)) (c : string) : option nat :=
  match res with
  | [] => None
  | lv :: res' => if decide (c ∈ lv) then Some 0 else S <$> level_of res' c
  end.

(** A dependency chain of [k] edges that ends at [c]. *)
Inductive chain_to (items : list Item) : nat → string → Prop :=
  | chain_to_O c : c ∈ names_of items → chain_to items 0 c
  | chain_to_S k d c :
      chain_to items k d → edge items d c → chain_to items (S k) c.

(** The topological depth of [c]: the length of the longest dependency
    chain that ends at [c]. *)
Definition depth_is (items : list Item) (i : nat) (c : string) : Prop :=
  chain_to items i c ∧ ∀ j, chain_to items j c → j ≤ i.

(** Occurrences of [c] in [l]. *)
Definition cnt (c : string) (l : list string) : nat :=
  count_occ (decide_rel (=)) l c.
Arguments cnt : simpl never.

(** Whether a counter that starts at [z] reaches zero within [k]
    decrements. *)
Definition hit (z : Z) (k : nat) : nat :=
  if decide (1 ≤ z ≤ Z.of_nat k)%Z then 1 else 0.

(** [children.get(n, [])] *)
Definition children_of (children : gmap string (list string)) (n : string)
  : list string := default [] (children !! n).

(** Level [i] holds, sorted and without repetition, exactly the names
    outside the earlier levels whose dependencies all lie in the earlier
    levels. *)
Definition layered (items : list Item) (res : list (list string)) : Prop :=
  ∀ i lv, res !! i = Some lv →
    lv ≠ [] ∧ Sorted str_le lv ∧ NoDup lv ∧
    ∀ c, c ∈ lv ↔
         c ∈ names_of items ∧ (c ∉ concat (take i res))
         ∧ remaining items (concat (take i res)) c = 0.

(** The state at the head of the loop: [in_deg] counts the dependencies
    not yet emitted, the queue holds the names that are ready and not yet
    emitted. *)
Record loop_inv (items : list Item) (in_deg : gmap string Z)
    (q : list string) (res : list (list string)) : Prop := {
  inv_deg : ∀ c, in_deg !! c =
      if decide (c ∈ names_of items)
      then Some (Z.of_nat (remaining items (concat res) c)) else None;
  inv_q_NoDup : NoDup q;
  inv_q : ∀ c, c ∈ q ↔
      c ∈ names_of items ∧ (c ∉ concat res)
      ∧ remaining items (concat res) c = 0;
  inv_done_NoDup : NoDup (concat res);
  inv_done : ∀ c, c ∈ concat res →
      c ∈ names_of items ∧ remaining items (concat res) c = 0;
  inv_layered : layered items res
}.

(** The items of the scenarios of the specification. *)
Definition itA : Item := mkItem (Some "A") "r" "a" None.
Definition itB : Item := mkItem (Some "B") "r" "b" (Some ["A"]).
Definition itC : Item := mkItem (Some "C") "r" "c" None.
Definition cyA : Item := mkItem (Some "A") "r" "a" (Some ["B"]).
Definition cyB : Item := mkItem (Some "B") "r" "b" (Some ["A"]).
Definition itBX : Item := mkItem (Some "B") "r" "b" (Some ["X"]).

(** The name line 71 appends for an item of the document. *)
Definition item_name (it : json) : string :=
  match it with
  | JObj o => resolved_name o
  | _ => ""
  end.

(** The item as the engine reads it once its shape is validated. *)
Definition item_of_json (o : gmap string json) : Item :=
  {| name := match o !! "name" with Some (JStr s) => Some s | _ => None end;
     repo := str_at o "repo";
     branch := str_at o "branch";
     deps := match o !! "deps" with
             | Some (JArr ds) =>
                 Some ((λ d, match d with JStr s => s | _ => "" end) <$> ds)
             | _ => None
             end |}.

(** Empty or made of whitespace only. *)
Definition blank (s : string) : Prop :=
  Forall (λ c, is_py_space c = true) (list_ascii_of_string s).

(** A JSON string. *)
Definition is_str (v : json) : Prop := ∃ s, v = JStr s.

(** A document written as a list of fields. *)
Definition jobj (fields : list (string * json)) : json :=
  JObj (list_to_map fields).

(** An item with a repo, a branch and a name. *)
Definition item_named (r b n : string) : gmap string json :=
  list_to_map [("repo", JStr r); ("branch", JStr b); ("name", JStr n)].

(** A plan with target [main]. *)
Definition plan_of (items : list json) : gmap string json :=
  list_to_map [("target", JStr "main"); ("items", JArr items)].

(** [f"items/{idx}/deps: expected array of strings"] *)
Definition deps_error (idx : nat) : string :=
  ("items/" +:+ str_of_nat idx) +:+ "/deps: expected array of strings".

(** An item of repo [r] with one dependency entry. *)
Definition item_blank_dep (b d : string) : gmap string json :=
  list_to_map [("repo", JStr "r"); ("branch", JStr b); ("deps", JArr [JStr d])].

(** Two well-formed items, each with a blank dependency entry. *)
Definition two_blank_deps : list json :=
  [JObj (item_blank_dep "a" ""); JObj (item_blank_dep "b" " ")].

(** An item with a blank dependency entry and a name that is a number. *)
Definition item_number_name : gmap string json :=
  list_to_map [("repo", JStr "r"); ("branch", JStr "b"); ("name", JNum 5);
               ("deps", JArr [JStr " "])].

(** Further items: one that depends on itself, and one item written in
    two ways, with its dependencies in another order and repeated. *)
Definition itSelf : Item := mkItem (Some "S") "r" "s" (Some ["S"]).
Definition itD_AC : Item := mkItem (Some "D") "r" "d" (Some ["A"; "C"]).
Definition itD_CAA : Item := mkItem (Some "D") "r" "d" (Some ["C"; "A"; "A"]).
Definition itD_A : Item := mkItem (Some "D") "r" "d" (Some ["A"]).

(** The data model of a plan, field by field. *)

(** The field is present and is a string that is not blank. *)
Definition nonblank_str (v : option json) : Prop :=
  ∃ s, v = Some (JStr s) ∧ ¬ blank s.

(** The field is absent or is a string. *)
Definition absent_or_str (v : option json) : Prop :=
  v = None ∨ ∃ s, v = Some (JStr s).

(** [deps]: absent, or an array of non-blank strings. *)
Definition wf_deps (v : option json) : Prop :=
  v = None
  ∨ ∃ ds, v = Some (JArr ds) ∧ Forall (λ d, ∃ s, d = JStr s ∧ ¬ blank s) ds.

(** [env]: absent, or an object whose values are strings. *)
Definition wf_env (v : option json) : Prop :=
  v = None
  ∨ ∃ e, v = Some (JObj e) ∧ ∀ k w, e !! k = Some w → is_str w.

Definition wf_gate (g : json) : Prop :=
  ∃ o, g = JObj o
       ∧ nonblank_str (o !! "name") ∧ nonblank_str (o !! "run")
       ∧ absent_or_str (o !! "cwd") ∧ wf_env (o !! "env").

(** [gates]: absent, or an array of gates. *)
Definition wf_gates (v : option json) : Prop :=
  v = None ∨ ∃ gs, v = Some (JArr gs) ∧ Forall wf_gate gs.

Definition wf_item (it : json) : Prop :=
  ∃ o, it = JObj o
       ∧ nonblank_str (o !! "repo") ∧ nonblank_str (o !! "branch")
       ∧ absent_or_str (o !! "name")
       ∧ wf_deps (o !! "deps") ∧ wf_gates (o !! "gates").

Definition wf_plan (data : json) : Prop :=
  ∃ o items, data = JObj o
             ∧ nonblank_str (o !! "target")
             ∧ o !! "items" = Some (JArr items)
             ∧ Forall wf_item items
             ∧ NoDup (item_name <$> items).

(** The items of a validated document as the engine reads them. *)
Definition items_of_json (items : list json) : list Item :=
  (λ it, match it with
         | JObj o => item_of_json o
         | _ => item_of_json ∅
         end) <$> items.

(** Whether the text after ["items/<idx>"] goes on with a field or ends
    the path. *)
Definition path_rest (rest : string) : Prop :=
  ∃ c rest', rest = String c rest' ∧ (c = "/"%char ∨ c = ":"%char).

(** A gate whose [env] maps a key to a number, and an item with it. *)
Definition gate_env_number : gmap string json :=
  list_to_map [("name", JStr "T"); ("run", JStr "echo hi");
               ("env", JObj (list_to_map [("A", JNum 1)]))].

Definition item_env_number : gmap string json :=
  list_to_map [("repo", JStr "org/repo"); ("branch", JStr "feat/a");
               ("name", JStr "A"); ("gates", JArr [JObj gate_env_number])].

(** The items of a valid plan: [A], and [B] which depends on [A]. *)
Definition plan_AB : list json :=
  [JObj (item_named "org/repo" "feat/a" "A");
   JObj (<["deps" := JArr [JStr "A"]]> (item_named "org/repo" "feat/b" "B"))].

(** A walk of the dependency relation: each name is a dependency of the
    next one. *)
Inductive walk (items : list Item) : list string → Prop :=
  | walk_one c : walk items [c]
  | walk_cons d c p : edge items d c → walk items (c :: p) → walk items (d :: c :: p).

(** Decide a closed decidable proposition by evaluation. *)
Ltac by_compute := apply (bool_decide_unpack _); vm_compute; exact I.

(** * Properties *)

(** ** The order on strings and [sorted] *)

Lemma compare_OT a b : String.compare a b = String_as_OT.compare a b.
Proof. revert b. induction a as [|c a IH]; intros [|c' b]; simpl; done. Qed.

Lemma str_le_alt a b : str_le a b ↔ a = b ∨ String_as_OT.lt a b.
Proof.
  unfold str_le, String.leb, String_as_OT.lt. rewrite compare_OT.
  destruct (String_as_OT.compare_spec a b) as [Heq|Hlt|Hgt].
  - split; auto.
  - split; auto.
  - split; [done|]. intros [->|Hlt]; exfalso.
    + by apply (irreflexivity String_as_OT.lt) in Hgt.
    + apply (irreflexivity String_as_OT.lt a). by etrans.
Qed.

#[global] Instance str_le_refl : Reflexive str_le.
Proof. intros a. apply str_le_alt. by left. Qed.

#[global] Instance str_le_trans : Transitive str_le.
Proof.
  intros a b c [->|Hab]%str_le_alt [->|Hbc]%str_le_alt; apply str_le_alt; eauto.
  right. by etrans.
Qed.

#[global] Instance str_le_total : Total str_le.
Proof. intros a b. apply String.leb_total. Qed.

#[global] Instance str_le_antisym : AntiSymm (=) str_le.
Proof. intros a b. apply String.leb_antisym. Qed.

Lemma sorted_perm l : sorted l ≡ₚ l.
Proof. apply merge_sort_Permutation. Qed.

Lemma sorted_Sorted l : Sorted str_le (sorted l).
Proof. apply Sorted_merge_sort, _. Qed.

Lemma sorted_elem_of c l : c ∈ sorted l ↔ c ∈ l.
Proof. by rewrite sorted_perm. Qed.

Lemma sorted_elem_of_1 c l : c ∈ sorted l → c ∈ l.
Proof. by rewrite sorted_elem_of. Qed.

Lemma sorted_elem_of_2 c l : c ∈ l → c ∈ sorted l.
Proof. by rewrite sorted_elem_of. Qed.

Lemma sorted_NoDup l : NoDup (sorted l) ↔ NoDup l.
Proof. by rewrite sorted_perm. Qed.

Lemma sorted_length l : length (sorted l) = length l.
Proof. by rewrite sorted_perm. Qed.

Lemma sorted_unique l k : l ≡ₚ k → sorted l = sorted k.
Proof.
  intros Hlk. apply (Sorted_unique str_le); auto using sorted_Sorted.
  by rewrite !sorted_perm.
Qed.

(** ** Folds in the [result] monad *)

Lemma bind_Ok {A B} (f : A → result B) a : Ok a ≫= f = f a.
Proof. done. Qed.

Lemma foldM_cons {A B} (f : A → B → result A) a x l :
  foldM f a (x :: l) = a' ← f a x; foldM f a' l.
Proof. done. Qed.

Lemma foldM_app {A B} (f : A → B → result A) a l1 l2 :
  foldM f a (l1 ++ l2) = a' ← foldM f a l1; foldM f a' l2.
Proof.
  revert a. induction l1 as [|x l1 IH]; intros a; simpl; [done|].
  destruct (f a x); simpl; auto.
Qed.

Lemma foldM_bind {A B C} (f : A → B → result A) (g : C → list B) a l :
  foldM (λ a c, foldM f a (g c)) a l = foldM f a (l ≫= g).
Proof.
  revert a. induction l as [|c l IH]; intros a; simpl; [done|].
  rewrite foldM_app. destruct (foldM f a (g c)); simpl; auto.
Qed.

(** ** Counting occurrences *)

Lemma cnt_nil c : cnt c [] = 0.
Proof. done. Qed.

Lemma cnt_cons c x l :
  cnt c (x :: l) = (if decide (x = c) then 1 else 0) + cnt c l.
Proof. unfold cnt. simpl. unfold decide, decide_rel. by destruct (String.eq_dec x c). Qed.

Lemma cnt_app c l k : cnt c (l ++ k) = cnt c l + cnt c k.
Proof. apply count_occ_app. Qed.

Lemma cnt_perm c l k : l ≡ₚ k → cnt c l = cnt c k.
Proof. intros H. unfold cnt. by apply Permutation_count_occ. Qed.

Lemma perm_cnt l k : (∀ c, cnt c l = cnt c k) → l ≡ₚ k.
Proof. intros H. by apply (Permutation_count_occ (decide_rel (=))). Qed.

Lemma cnt_elem_of c l : c ∈ l ↔ 0 < cnt c l.
Proof. rewrite list_elem_of_In. apply count_occ_In. Qed.

Lemma NoDup_cnt l : NoDup l ↔ ∀ c, cnt c l ≤ 1.
Proof. rewrite NoDup_ListNoDup. apply NoDup_count_occ. Qed.

Lemma cnt_sorted c l : cnt c (sorted l) = cnt c l.
Proof. apply cnt_perm, sorted_perm. Qed.

Lemma filter_elem_of_nil (L : list string) :
  filter (λ d, d ∈ @nil string) L = [].
Proof.
  induction L as [|d L IH]; [done|].
  rewrite filter_cons_False; [done|]. apply not_elem_of_nil.
Qed.

Lemma filter_elem_of_cons (n : string) (l L : list string) :
  n ∉ l →
  length (filter (λ d, d ∈ n :: l) L) = cnt n L + length (filter (λ d, d ∈ l) L).
Proof.
  intros Hn. induction L as [|d L IH]; [done|].
  rewrite cnt_cons, !filter_cons.
  destruct (decide (d ∈ n :: l)) as [Hin|Hin], (decide (d ∈ l)) as [Hdl|Hdl],
    (decide (d = n)) as [->|Hne]; simpl; rewrite ?IH; try lia;
    rewrite elem_of_cons in Hin; tauto.
Qed.

Lemma cnt_bind_filter (f : string → list string) (L l : list string) c :
  NoDup l →
  (∀ n, cnt c (f n) = cnt n L) →
  cnt c (l ≫= f) = length (filter (λ d, d ∈ l) L).
Proof.
  intros Hl Hfg. induction Hl as [|n l Hn Hl IH].
  - by rewrite filter_elem_of_nil.
  - by rewrite bind_cons, cnt_app, IH, Hfg, filter_elem_of_cons.
Qed.

(** ** One level of the loop: decrementing and enqueueing *)

Lemma getitem_Some {V} (d : gmap string V) k v :
  d !! k = Some v → getitem d k = Ok v.
Proof. unfold getitem. by intros ->. Qed.

Lemma visit_child_step in_deg q e z :
  in_deg !! e = Some z →
  visit_child (in_deg, q) e =
    Ok (<[e := (z - 1)%Z]> in_deg, if decide (z = 1%Z) then q ++ [e] else q).
Proof.
  intros He. unfold visit_child. rewrite (getitem_Some _ _ _ He). simpl.
  rewrite (getitem_Some _ e (z - 1)%Z) by apply lookup_insert_eq. simpl.
  repeat case_decide; try lia; done.
Qed.

Lemma visit_child_fold es : ∀ in_deg q,
  (∀ c, c ∈ es → is_Some (in_deg !! c)) →
  ∃ in_deg' q',
    foldM visit_child (in_deg, q) es = Ok (in_deg', q')
    ∧ (∀ c, in_deg' !! c = (λ z, z - Z.of_nat (cnt c es))%Z <$> in_deg !! c)
    ∧ (∀ c, cnt c q' =
            cnt c q + from_option (λ z, hit z (cnt c es)) 0 (in_deg !! c)).
Proof.
  induction es as [|e es IH]; intros in_deg q Hkeys.
  - exists in_deg, q. split; [done|]. split; intros c.
    + destruct (in_deg !! c) as [z|]; simpl; f_equal. unfold cnt. simpl. lia.
    + destruct (in_deg !! c) as [z|]; simpl; [|lia].
      unfold hit, cnt. simpl. case_decide; lia.
  - destruct (Hkeys e) as [z Hz]; [apply elem_of_cons; by left|].
    rewrite foldM_cons, (visit_child_step _ _ _ _ Hz). simpl.
    edestruct (IH (<[e := (z - 1)%Z]> in_deg)) as (in_deg' & q' & -> & Hdeg & Hq).
    { intros c Hc. destruct (decide (e = c)) as [->|Hne].
      - rewrite lookup_insert_eq. eauto.
      - rewrite lookup_insert_ne by done. apply Hkeys, elem_of_cons. by right. }
    exists in_deg', q'. split; [done|]. split; intros c.
    + rewrite Hdeg, cnt_cons. destruct (decide (e = c)) as [->|Hne].
      * rewrite lookup_insert_eq, Hz. simpl. f_equal. lia.
      * rewrite lookup_insert_ne by done.
        destruct (in_deg !! c); simpl; [f_equal; lia|done].
    + rewrite Hq, (cnt_cons c e es). destruct (decide (e = c)) as [->|Hne].
      * rewrite lookup_insert_eq, Hz. simpl. unfold hit.
        destruct (decide (z = 1%Z)) as [->|Hz1].
        -- rewrite cnt_app, cnt_cons. unfold cnt at 2. simpl.
           repeat case_decide; try lia; done.
        -- repeat case_decide; lia.
      * rewrite lookup_insert_ne by done. simpl.
        case_decide; [|done].
        rewrite cnt_app, cnt_cons, cnt_nil. case_decide; [done|lia].
Qed.

(** ** Building the graph (lines 19-30) *)

Lemma children_of_insert ch d0 l d :
  children_of (<[d0 := l]> ch) d = if decide (d0 = d) then l else children_of ch d.
Proof.
  unfold children_of. case_decide as Hd.
  - subst. by rewrite lookup_insert_eq.
  - by rewrite lookup_insert_ne.
Qed.

Lemma add_dep_step ns me ch deg d z :
  d ∈ ns → deg !! me = Some z →
  add_dep ns me (ch, deg) d =
    Ok (<[d := children_of ch d ++ [me]]> ch, <[me := (z + 1)%Z]> deg).
Proof.
  intros Hd Hz. unfold add_dep. rewrite decide_True by done.
  by rewrite (getitem_Some _ _ _ Hz).
Qed.

Lemma add_dep_fold ns me ds : ∀ ch deg,
  Forall (λ d, d ∈ ns) ds → is_Some (deg !! me) →
  ∃ ch' deg',
    foldM (add_dep ns me) (ch, deg) ds = Ok (ch', deg')
    ∧ (∀ c, deg' !! c =
            (λ z, z + Z.of_nat (if decide (c = me) then length ds else 0))%Z
              <$> deg !! c)
    ∧ (∀ d c, cnt c (children_of ch' d) =
              cnt c (children_of ch d) + (if decide (c = me) then cnt d ds else 0)).
Proof.
  induction ds as [|d0 ds IH]; intros ch deg Hds [z Hz].
  - exists ch, deg. split; [done|]. split.
    + intros c. destruct (deg !! c); simpl; [|done].
      f_equal. case_decide; simpl; lia.
    + intros d c. rewrite cnt_nil. case_decide; lia.
  - apply Forall_cons in Hds as [Hd0 Hds].
    rewrite foldM_cons, (add_dep_step _ _ _ _ _ _ Hd0 Hz). simpl.
    edestruct (IH (<[d0 := children_of ch d0 ++ [me]]> ch)
                  (<[me := (z + 1)%Z]> deg)) as (ch' & deg' & -> & Hdeg & Hch);
      [done|by rewrite lookup_insert_eq|].
    exists ch', deg'. split; [done|]. split.
    + intros c. rewrite Hdeg. destruct (decide (c = me)) as [->|Hne].
      * rewrite lookup_insert_eq, Hz. simpl. f_equal. lia.
      * by rewrite lookup_insert_ne.
    + intros d c. rewrite Hch, cnt_cons, children_of_insert.
      destruct (decide (d0 = d)) as [->|Hne].
      * rewrite cnt_app, cnt_cons, cnt_nil.
        destruct (decide (c = me)) as [->|Hc].
        -- rewrite decide_True by done. lia.
        -- rewrite decide_False by done. lia.
      * case_decide; lia.
Qed.

Lemma add_dep_fold_fail ns me ds1 d ds2 ch deg :
  Forall (λ d, d ∈ ns) ds1 → d ∉ ns → is_Some (deg !! me) →
  foldM (add_dep ns me) (ch, deg) (ds1 ++ d :: ds2)
  = Raise (KeyError (unknown_dep_msg d me)).
Proof.
  intros Hds1 Hd Hme. rewrite foldM_app.
  destruct (add_dep_fold ns me ds1 ch deg Hds1 Hme) as (ch' & deg' & -> & _).
  simpl. by rewrite decide_False.
Qed.

Lemma all_deps_cons it items c :
  all_deps (it :: items) c =
    (if decide (_name_of it = c) then deps_of it else []) ++ all_deps items c.
Proof. done. Qed.

Lemma build_fold ns items : ∀ ch deg,
  Forall (λ it, Forall (λ d, d ∈ ns) (deps_of it)) items →
  (∀ it, it ∈ items → is_Some (deg !! _name_of it)) →
  ∃ ch' deg',
    foldM (add_item ns) (ch, deg) items = Ok (ch', deg')
    ∧ (∀ c, deg' !! c =
            (λ z, z + Z.of_nat (length (all_deps items c)))%Z <$> deg !! c)
    ∧ (∀ d c, cnt c (children_of ch' d) =
              cnt c (children_of ch d) + cnt d (all_deps items c)).
Proof.
  induction items as [|it items IH]; intros ch deg Hres Hkeys.
  - exists ch, deg. split; [done|]. split.
    + intros c. destruct (deg !! c); simpl; [|done]. f_equal. lia.
    + intros d c. rewrite cnt_nil. lia.
  - apply Forall_cons in Hres as [Hit Hres].
    rewrite foldM_cons.
    change (add_item ns (ch, deg) it)
      with (foldM (add_dep ns (_name_of it)) (ch, deg) (deps_of it)).
    destruct (add_dep_fold ns (_name_of it) (deps_of it) ch deg)
      as (ch1 & deg1 & -> & Hdeg1 & Hch1); [done|apply Hkeys; by left|].
    simpl.
    destruct (IH ch1 deg1) as (ch' & deg' & -> & Hdeg & Hch); [done| |].
    { intros it' Hit'. rewrite Hdeg1. apply fmap_is_Some, Hkeys. by right. }
    exists ch', deg'. split; [done|]. split.
    + intros c. rewrite Hdeg, Hdeg1, all_deps_cons, length_app.
      destruct (deg !! c); simpl; [|done]. f_equal.
      destruct (decide (c = _name_of it)) as [->|Hne].
      * rewrite decide_True by done. lia.
      * rewrite decide_False by done. simpl. lia.
    + intros d c. rewrite Hch, Hch1, all_deps_cons, cnt_app.
      destruct (decide (c = _name_of it)) as [->|Hne].
      * rewrite decide_True by done. lia.
      * rewrite decide_False by done. rewrite cnt_nil. lia.
Qed.

Lemma in_deg_init_lookup (names : list string) c :
  (list_to_map ((λ n, (n, 0%Z)) <$> names) : gmap string Z) !! c
  = if decide (c ∈ names) then Some 0%Z else None.
Proof.
  induction names as [|n names IH].
  - rewrite decide_False by apply not_elem_of_nil. apply lookup_empty.
  - rewrite fmap_cons, list_to_map_cons.
    destruct (decide (n = c)) as [->|Hne].
    + rewrite lookup_insert_eq. rewrite decide_True; [done|by left].
    + rewrite lookup_insert_ne, IH by done.
      destruct (decide (c ∈ names)).
      * rewrite decide_True; [done|by right].
      * rewrite decide_False; [done|]. rewrite elem_of_cons. intros [?|?]; done.
Qed.

Lemma deps_resolve_set items :
  deps_resolve items →
  Forall (λ it, Forall (λ d, d ∈ (list_to_set (names_of items) : gset string))
                       (deps_of it)) items.
Proof.
  intros H. eapply Forall_impl; [exact H|]. intros it Hit. simpl in *.
  eapply Forall_impl; [exact Hit|]. intros d. simpl.
  by rewrite elem_of_list_to_set.
Qed.

(** The graph that [build] leaves when every dependency resolves. *)
Lemma build_ok items :
  deps_resolve items →
  ∃ ch deg,
    build items = Ok (ch, deg)
    ∧ (∀ c, deg !! c = if decide (c ∈ names_of items)
                       then Some (Z.of_nat (length (all_deps items c)))
                       else None)
    ∧ (∀ d c, cnt c (children_of ch d) = cnt d (all_deps items c)).
Proof.
  intros Hres. unfold build.
  edestruct (build_fold (list_to_set (_name_of <$> items)) items ∅)
    as (ch & deg & -> & Hdeg & Hch).
  { by apply deps_resolve_set. }
  { intros it Hit. rewrite in_deg_init_lookup, decide_True; [eauto|].
    by apply list_elem_of_fmap_2. }
  exists ch, deg. split; [done|]. split.
  - intros c. rewrite Hdeg, in_deg_init_lookup. unfold names_of.
    case_decide; simpl; [|done]. f_equal.
  - intros d c. rewrite Hch. unfold children_of. by rewrite lookup_empty.
Qed.

(** ** The dependency relation *)

Lemma all_deps_elem_of items d c : d ∈ all_deps items c ↔ edge items d c.
Proof.
  unfold all_deps, edge. rewrite list_elem_of_bind. split.
  - intros (it & Hd & Hit). exists it. case_decide; [done|].
    by apply not_elem_of_nil in Hd.
  - intros (it & Hit & Hc & Hd). exists it. by rewrite decide_True.
Qed.

Lemma edge_names items u v :
  deps_resolve items → edge items u v → u ∈ names_of items ∧ v ∈ names_of items.
Proof.
  intros Hres (it & Hit & <- & Hu). split.
  - unfold deps_resolve in Hres. rewrite Forall_forall in Hres.
    specialize (Hres it Hit). rewrite Forall_forall in Hres. by apply Hres.
  - by apply list_elem_of_fmap_2.
Qed.

Lemma remaining_nil items c : remaining items [] c = length (all_deps items c).
Proof.
  unfold remaining. induction (all_deps items c) as [|d ds IH]; [done|].
  rewrite filter_cons_True by apply not_elem_of_nil.
  rewrite !length_cons. by f_equal.
Qed.

Lemma remaining_zero items P c :
  remaining items P c = 0 ↔ ∀ d, edge items d c → d ∈ P.
Proof.
  unfold remaining. rewrite length_zero_iff_nil.
  setoid_rewrite <- all_deps_elem_of.
  induction (all_deps items c) as [|d ds IH].
  - split; [|done]. intros _ d Hd. by apply not_elem_of_nil in Hd.
  - rewrite filter_cons. destruct (decide (d ∉ P)) as [Hd|Hd].
    + split; [done|]. intros H. exfalso. apply Hd, H. by left.
    + rewrite IH. split.
      * intros H d' [Heq|Hd']%elem_of_cons; [|by apply H].
        rewrite Heq. by destruct (decide (d ∈ P)).
      * intros H d' Hd'. apply H. by right.
Qed.

Lemma remaining_split items P L c :
  (∀ x, x ∈ L → x ∉ P) →
  remaining items P c =
    length (filter (λ d, d ∈ L) (all_deps items c)) + remaining items (P ++ L) c.
Proof.
  intros Hdisj. unfold remaining.
  induction (all_deps items c) as [|d ds IH]; [done|].
  rewrite !filter_cons.
  destruct (decide (d ∉ P)) as [HP|HP], (decide (d ∈ L)) as [HL|HL],
    (decide (d ∉ P ++ L)) as [HPL|HPL]; simpl; rewrite ?IH; try lia;
    rewrite elem_of_app in HPL; try tauto.
  exfalso. apply HP. by apply Hdisj.
Qed.

(** ** The invariant of the [while q] loop *)

Lemma elem_of_concat {A} (x : A) (ls : list (list A)) :
  x ∈ concat ls ↔ ∃ i l, ls !! i = Some l ∧ x ∈ l.
Proof.
  induction ls as [|l ls IH]; simpl.
  - split; [by intros ?%not_elem_of_nil|]. by intros (i & l & ? & _).
  - rewrite elem_of_app, IH. split.
    + intros [Hx|(i & l' & Hi & Hx)]; [by exists 0, l|by exists (S i), l'].
    + intros ([|i] & l' & Hi & Hx); simplify_eq/=; eauto.
Qed.

Lemma concat_snoc {A} (ls : list (list A)) (l : list A) :
  concat (ls ++ [l]) = concat ls ++ l.
Proof. rewrite concat_app. simpl. by rewrite app_nil_r. Qed.

Lemma layered_nil items : layered items [].
Proof. intros i lv Hi. by rewrite lookup_nil in Hi. Qed.

Lemma layered_snoc items res lv :
  layered items res →
  lv ≠ [] → Sorted str_le lv → NoDup lv →
  (∀ c, c ∈ lv ↔ c ∈ names_of items ∧ (c ∉ concat res)
                 ∧ remaining items (concat res) c = 0) →
  layered items (res ++ [lv]).
Proof.
  intros Hres Hne Hs Hnd Hlv i lv' Hi.
  destruct (decide (i < length res)) as [Hlt|Hge].
  - rewrite lookup_app_l in Hi by done.
    rewrite take_app_le by lia. by apply Hres.
  - rewrite lookup_app_r in Hi by lia.
    apply list_lookup_singleton_Some in Hi as [Hi <-].
    assert (i = length res) as -> by lia.
    rewrite take_app_length. done.
Qed.

Section kahn.
Variable items : list Item.
Hypothesis Hres : deps_resolve items.
Variable ch : gmap string (list string).
Hypothesis Hch : ∀ d c, cnt c (children_of ch d) = cnt d (all_deps items c).

Lemma process_level_unfold in_deg lvl :
  process_level ch in_deg lvl =
    foldM visit_child (in_deg, []) (lvl ≫= λ n, sorted (children_of ch n)).
Proof. apply (foldM_bind visit_child (λ n, sorted (children_of ch n))). Qed.

Lemma all_deps_names c d :
  d ∈ all_deps items c → c ∈ names_of items ∧ d ∈ names_of items.
Proof.
  intros Hd%all_deps_elem_of. by destruct (edge_names _ _ _ Hres Hd).
Qed.

(** One turn of the loop keeps the invariant. *)
Lemma process_level_inv in_deg q res :
  loop_inv items in_deg q res →
  q ≠ [] →
  ∃ in_deg' q',
    process_level ch in_deg (sorted q) = Ok (in_deg', q')
    ∧ loop_inv items in_deg' q' (res ++ [sorted q]).
Proof.
  intros [Hdeg Hqnd Hq Hpnd Hp Hlay] Hne.
  set (P := concat res) in *. set (lvl := sorted q).
  assert (NoDup lvl) as Hlnd by (unfold lvl; by rewrite sorted_NoDup).
  assert (∀ x, x ∈ lvl → x ∉ P) as Hdisj.
  { intros x Hx%sorted_elem_of_1%Hq. tauto. }
  assert (∀ c, cnt c (lvl ≫= λ n, sorted (children_of ch n))
               = length (filter (λ d, d ∈ lvl) (all_deps items c))) as Hcnt.
  { intros c. apply cnt_bind_filter; [done|].
    intros n. by rewrite cnt_sorted. }
  rewrite process_level_unfold.
  destruct (visit_child_fold (lvl ≫= λ n, sorted (children_of ch n)) in_deg [])
    as (in_deg' & q' & Hrun & Hdeg' & Hq').
  { intros c Hc%cnt_elem_of. rewrite Hcnt in Hc.
    destruct (filter _ _) as [|d ds] eqn:Hf; [simpl in Hc; lia|].
    assert (d ∈ filter (λ d, d ∈ lvl) (all_deps items c)) as Hd
      by (rewrite Hf; by left).
    apply list_elem_of_filter in Hd as [_ Hd].
    apply all_deps_names in Hd as [Hc' _].
    rewrite Hdeg, decide_True by done. eauto. }
  exists in_deg', q'. split; [done|].
  assert (∀ c, cnt c q' =
               if decide (c ∈ names_of items ∧ 0 < remaining items P c
                          ∧ remaining items (P ++ lvl) c = 0)
               then 1 else 0) as Hq'c.
  { intros c. rewrite Hq', cnt_nil, Hdeg, Hcnt. simpl.
    pose proof (remaining_split items P lvl c Hdisj) as Hsplit.
    destruct (decide (c ∈ names_of items)) as [Hc|Hc]; simpl.
    - unfold hit. repeat case_decide; try done.
      + exfalso. apply H0. split_and!; [done|lia|lia].
      + exfalso. destruct H0 as (_ & ? & ?). lia.
    - rewrite decide_False; [done|tauto]. }
  split; rewrite ?concat_snoc; fold P; fold lvl.
  - intros c. rewrite Hdeg', Hdeg, Hcnt.
    pose proof (remaining_split items P lvl c Hdisj) as Hsplit.
    case_decide; simpl; [|done]. f_equal. lia.
  - apply NoDup_cnt. intros c. rewrite Hq'c. case_decide; lia.
  - intros c. rewrite cnt_elem_of, Hq'c. rewrite elem_of_app.
    pose proof (remaining_split items P lvl c Hdisj) as Hsplit.
    split.
    + case_decide as Hc; [|lia]. intros _.
      destruct Hc as (Hc & Hpos & Hz). split_and!; [done| |done].
      intros [HcP%Hp|Hcl%sorted_elem_of_1%Hq]; lia.
    + intros (Hc & Hnot & Hz). rewrite decide_True; [lia|].
      split_and!; [done| |done].
      destruct (decide (remaining items P c = 0)) as [Hz0|]; [|lia].
      exfalso. apply Hnot. right. apply sorted_elem_of_2, Hq. split_and!; try done.
      intros HcP. apply Hnot. by left.
  - apply NoDup_app. split_and!; [done| |done].
    intros x HxP Hxl. by apply (Hdisj x).
  - intros c. pose proof (remaining_split items P lvl c Hdisj) as Hsplit.
    rewrite elem_of_app.
    intros [HcP%Hp|Hcl%sorted_elem_of_1%Hq]; split; try tauto; lia.
  - apply layered_snoc; try done.
    + intros Hnil. apply Hne. apply Permutation_nil_r.
      rewrite <- Hnil. symmetry. apply sorted_perm.
    + apply sorted_Sorted.
    + intros c. unfold lvl. rewrite sorted_elem_of. apply Hq.
Qed.

Lemma loop_inv_length in_deg q res :
  loop_inv items in_deg q res →
  length (concat res) + length q ≤ length items.
Proof.
  intros [_ Hqnd Hq Hpnd Hp _].
  rewrite <- length_app, <- (length_fmap _name_of items).
  apply submseteq_length, NoDup_submseteq.
  - apply NoDup_app. split_and!; [done| |done].
    intros x HxP Hxq%Hq. tauto.
  - intros x [HxP%Hp|Hxq%Hq]%elem_of_app; unfold names_of in *; tauto.
Qed.

(** The loop ends within [fuel] turns and keeps the invariant. *)
Lemma kahn_loop_inv fuel : ∀ in_deg q res,
  loop_inv items in_deg q res →
  length items < fuel + length (concat res) →
  ∃ in_deg' res',
    kahn_loop fuel ch in_deg q res = Some (Ok (in_deg', res'))
    ∧ loop_inv items in_deg' [] res'.
Proof.
  induction fuel as [|fuel IH]; intros in_deg q res Hinv Hfuel.
  - pose proof (loop_inv_length _ _ _ Hinv). lia.
  - destruct q as [|x q0] eqn:Hq; [by exists in_deg, res|].
    destruct (process_level_inv in_deg (x :: q0) res Hinv)
      as (in_deg' & q' & Hrun & Hinv'); [done|].
    simpl. rewrite Hrun.
    apply IH; [done|].
    rewrite concat_snoc, length_app, sorted_length. simpl. lia.
Qed.
End kahn.

Lemma zero_in_degree_elem_of in_deg c :
  c ∈ zero_in_degree in_deg ↔ in_deg !! c = Some 0%Z.
Proof.
  unfold zero_in_degree. rewrite list_elem_of_fmap. split.
  - intros ([k z] & -> & [Hz Hkz]%list_elem_of_filter). simpl in *. subst.
    by apply elem_of_map_to_list.
  - intros Hc. exists (c, 0%Z). split; [done|].
    apply list_elem_of_filter. split; [done|]. by apply elem_of_map_to_list.
Qed.

Lemma zero_in_degree_NoDup in_deg : NoDup (zero_in_degree in_deg).
Proof.
  unfold zero_in_degree.
  eapply sublist_NoDup; [apply (NoDup_fst_map_to_list in_deg)|].
  apply fmap_sublist, sublist_filter.
Qed.

Lemma any_positive_true in_deg :
  any_positive in_deg = true ↔ ∃ c z, in_deg !! c = Some z ∧ (0 < z)%Z.
Proof.
  unfold any_positive. rewrite bool_decide_eq_true, Exists_exists. split.
  - intros ([c z] & Hin%elem_of_map_to_list & Hz). by exists c, z.
  - intros (c & z & Hc & Hz). exists (c, z). split; [|done].
    by apply elem_of_map_to_list.
Qed.

Lemma loop_inv_init items deg :
  (∀ c, deg !! c = if decide (c ∈ names_of items)
                   then Some (Z.of_nat (length (all_deps items c)))
                   else None) →
  loop_inv items deg (sorted (zero_in_degree deg)) [].
Proof.
  intros Hdeg. split; simpl.
  - intros c. by rewrite Hdeg, remaining_nil.
  - rewrite sorted_NoDup. apply zero_in_degree_NoDup.
  - intros c. rewrite sorted_elem_of, zero_in_degree_elem_of, Hdeg, remaining_nil.
    case_decide; split.
    + intros [= Hz]. split_and!; [done|apply not_elem_of_nil|lia].
    + intros (_ & _ & ->). done.
    + done.
    + tauto.
  - constructor.
  - by intros c ?%not_elem_of_nil.
  - apply layered_nil.
Qed.

(** What [levels] returns when every dependency resolves: the loop ends,
    and the outcome is decided by the in-degrees it leaves. *)
Lemma levels_run items :
  deps_resolve items →
  ∃ deg res,
    loop_inv items deg [] res
    ∧ levels items =
        if any_positive deg
        then Some (Raise (CycleError "dependency cycle detected"))
        else Some (Ok res).
Proof.
  intros Hres.
  destruct (build_ok items Hres) as (ch & deg0 & Hbuild & Hdeg0 & Hch).
  destruct (kahn_loop_inv items Hres ch Hch (S (length items)) deg0
              (sorted (zero_in_degree deg0)) [])
    as (deg & res & Hrun & Hinv).
  { by apply loop_inv_init. }
  { simpl. lia. }
  exists deg, res. split; [done|].
  unfold levels, levels_fuel. rewrite Hbuild, Hrun. done.
Qed.

Lemma kahn_loop_mono fuel : ∀ fuel' ch in_deg q res r,
  kahn_loop fuel ch in_deg q res = Some r → fuel ≤ fuel' →
  kahn_loop fuel' ch in_deg q res = Some r.
Proof.
  induction fuel as [|fuel IH]; intros fuel' ch in_deg q res r; [done|].
  destruct fuel' as [|fuel']; [lia|]. simpl.
  destruct q as [|x q]; [done|].
  destruct (process_level _ _ _) as [[deg' q']|e]; [|done].
  intros Hrun Hle. apply IH; [done|lia].
Qed.

(** ** Unknown dependencies (lines 27-28) *)

Lemma first_failure {A} (P : A → Prop) `{∀ x, Decision (P x)} (l : list A) :
  ¬ Forall P l →
  ∃ l1 x l2, l = l1 ++ x :: l2 ∧ Forall P l1 ∧ ¬ P x.
Proof.
  induction l as [|x l IH]; intros Hnot.
  - destruct Hnot. constructor.
  - destruct (decide (P x)) as [Hx|Hx].
    + destruct IH as (l1 & y & l2 & -> & Hl1 & Hy).
      { intros Hl. apply Hnot. by constructor. }
      exists (x :: l1), y, l2. split_and!; [done|by constructor|done].
    + exists [], x, l. split_and!; [done|constructor|done].
Qed.

Lemma build_first_unknown items pre it post ds1 d ds2 :
  items = pre ++ it :: post →
  deps_of it = ds1 ++ d :: ds2 →
  Forall (λ it', Forall (λ d', d' ∈ names_of items) (deps_of it')) pre →
  Forall (λ d', d' ∈ names_of items) ds1 →
  d ∉ names_of items →
  build items = Raise (KeyError (unknown_dep_msg d (_name_of it))).
Proof.
  intros Hitems Hdeps Hpre Hds1 Hd. unfold build.
  set (ns := list_to_set (_name_of <$> items) : gset string).
  set (deg0 := list_to_map ((λ n, (n, 0%Z)) <$> (_name_of <$> items))
               : gmap string Z).
  assert (∀ x, x ∈ names_of items ↔ x ∈ ns) as Hns.
  { intros x. unfold ns. by rewrite elem_of_list_to_set. }
  assert (∀ it', it' ∈ items → is_Some (deg0 !! _name_of it')) as Hkeys.
  { intros it' Hit'. unfold deg0. rewrite in_deg_init_lookup, decide_True; [eauto|].
    by apply list_elem_of_fmap_2. }
  rewrite Hitems at 1. rewrite foldM_app.
  destruct (build_fold ns pre ∅ deg0) as (ch1 & deg1 & -> & Hdeg1 & _).
  { eapply Forall_impl; [exact Hpre|]. intros it' Hit'. simpl in *.
    eapply Forall_impl; [exact Hit'|]. intros d'. apply Hns. }
  { intros it' Hit'. apply Hkeys. rewrite Hitems, elem_of_app. by left. }
  rewrite bind_Ok, foldM_cons.
  change (add_item ns (ch1, deg1) it)
    with (foldM (add_dep ns (_name_of it)) (ch1, deg1) (deps_of it)).
  rewrite Hdeps, add_dep_fold_fail; [done| | |].
  - eapply Forall_impl; [exact Hds1|]. intros d'. apply Hns.
  - by rewrite <- Hns.
  - rewrite Hdeg1. apply fmap_is_Some, Hkeys.
    rewrite Hitems, elem_of_app. right. by left.
Qed.

Lemma build_unknown items :
  ¬ deps_resolve items →
  ∃ pre it post ds1 d ds2,
    items = pre ++ it :: post ∧ deps_of it = ds1 ++ d :: ds2
    ∧ Forall (λ it', Forall (λ d', d' ∈ names_of items) (deps_of it')) pre
    ∧ Forall (λ d', d' ∈ names_of items) ds1
    ∧ (d ∉ names_of items)
    ∧ build items = Raise (KeyError (unknown_dep_msg d (_name_of it))).
Proof.
  intros Hnot. unfold deps_resolve in Hnot.
  apply (first_failure
           (λ it, Forall (λ d, d ∈ names_of items) (deps_of it))) in Hnot
    as (pre & it & post & Hitems & Hpre & Hit).
  apply (first_failure (λ d, d ∈ names_of items)) in Hit
    as (ds1 & d & ds2 & Hdeps & Hds1 & Hd).
  exists pre, it, post, ds1, d, ds2. split_and!; try done.
  by eapply build_first_unknown.
Qed.

Lemma levels_build_raise items e :
  build items = Raise e → levels items = Some (Raise e).
Proof. intros H. unfold levels, levels_fuel. by rewrite H. Qed.

(** The loop always ends within the turns [levels] grants it, and more
    turns change nothing. *)
Lemma levels_total items : ∃ r, levels items = Some r.
Proof.
  destruct (decide (deps_resolve items)) as [Hres|Hres].
  - destruct (levels_run items Hres) as (deg & res & _ & ->).
    destruct (any_positive deg); by eexists.
  - apply build_unknown in Hres as (?&?&?&?&?&?&_&_&_&_&_&Hb).
    eexists. by apply levels_build_raise.
Qed.

Lemma levels_fuel_enough items fuel :
  S (length items) ≤ fuel → levels_fuel fuel items = levels items.
Proof.
  intros Hle. destruct (levels_total items) as [r Hr].
  unfold levels in *. unfold levels_fuel in *.
  destruct (build items) as [[ch deg]|e]; [|done].
  destruct (kahn_loop (S (length items)) ch deg _ []) as [r'|] eqn:Hrun; [|done].
  by rewrite (kahn_loop_mono _ fuel _ _ _ _ _ Hrun Hle).
Qed.

(** ** What a successful run returns *)

Lemma levels_ok_inv items res :
  levels items = Some (Ok res) →
  deps_resolve items ∧ layered items res ∧ NoDup (concat res)
  ∧ (∀ c, c ∈ concat res ↔ c ∈ names_of items).
Proof.
  intros Hlev.
  destruct (decide (deps_resolve items)) as [Hres|Hres].
  2:{ apply build_unknown in Hres as (?&?&?&?&?&?&_&_&_&_&_&Hb).
      apply levels_build_raise in Hb. congruence. }
  split; [done|].
  destruct (levels_run items Hres) as (deg & res' & Hinv & Hlev').
  rewrite Hlev in Hlev'.
  destruct (any_positive deg) eqn:Hpos; [done|].
  injection Hlev' as ->. destruct Hinv as [Hdeg _ Hq Hnd Hp Hlay].
  split_and!; [done|done|]. intros c. split; [intros HcP; by apply Hp|].
  intros Hc. destruct (decide (c ∈ concat res')) as [|Hnot]; [done|].
  exfalso. specialize (Hdeg c). rewrite decide_True in Hdeg by done.
  destruct (decide (remaining items (concat res') c = 0)) as [Hz|Hz].
  - eapply not_elem_of_nil. apply Hq. done.
  - apply not_true_iff_false in Hpos. apply Hpos, any_positive_true.
    eexists _, _. split; [exact Hdeg|]. lia.
Qed.

(** ** Levels and dependency edges *)

Lemma elem_of_concat_take {A} (x : A) (ls : list (list A)) j :
  x ∈ concat (take j ls) ↔ ∃ i l, i < j ∧ ls !! i = Some l ∧ x ∈ l.
Proof.
  rewrite elem_of_concat. split.
  - intros (i & l & [Hi Hlt]%lookup_take_Some & Hx). by exists i, l.
  - intros (i & l & Hlt & Hi & Hx). exists i, l. split; [|done].
    by apply lookup_take_Some.
Qed.

Lemma level_of_Some res c i :
  level_of res c = Some i → ∃ lv, res !! i = Some lv ∧ c ∈ lv.
Proof.
  revert i. induction res as [|l res IH]; intros i; simpl; [done|].
  case_decide as Hc.
  - intros [= <-]. by exists l.
  - destruct (level_of res c) as [k|] eqn:Hk; simpl; [|done].
    intros [= <-]. destruct (IH k) as (lv & ? & ?); [done|]. by exists lv.
Qed.

Lemma level_of_unique res c i lv :
  NoDup (concat res) → res !! i = Some lv → c ∈ lv → level_of res c = Some i.
Proof.
  revert i. induction res as [|l res IH]; intros i Hnd Hi Hc; [done|].
  simpl in Hnd. apply NoDup_app in Hnd as (_ & Hdisj & Hnd).
  destruct i as [|i]; simpl in *.
  - injection Hi as ->. by rewrite decide_True.
  - rewrite decide_False.
    + by rewrite (IH i).
    + intros Hcl. apply (Hdisj c Hcl). apply elem_of_concat. by exists i, lv.
Qed.

Lemma layered_edge items res u v j lv :
  layered items res → res !! j = Some lv → v ∈ lv → edge items u v →
  ∃ i lu, i < j ∧ res !! i = Some lu ∧ u ∈ lu.
Proof.
  intros Hlay Hj Hv Huv.
  destruct (Hlay j lv Hj) as (_ & _ & _ & Hmem).
  apply Hmem in Hv as (_ & _ & Hz).
  apply elem_of_concat_take. by eapply remaining_zero.
Qed.

(** Along every dependency edge the level index grows. *)
Lemma levels_edge_order items res u v :
  levels items = Some (Ok res) → edge items u v →
  ∃ i j, level_of res u = Some i ∧ level_of res v = Some j ∧ i < j.
Proof.
  intros (Hres & Hlay & Hnd & Hcov)%levels_ok_inv Huv.
  destruct (edge_names items u v Hres Huv) as [_ Hv].
  apply Hcov, elem_of_concat in Hv as (j & lv & Hj & Hv).
  destruct (layered_edge items res u v j lv) as (i & lu & Hlt & Hi & Hu); try done.
  exists i, j. split_and!; [|by eapply level_of_unique|done].
  by eapply level_of_unique.
Qed.

Lemma levels_path_order items res u v :
  levels items = Some (Ok res) → tc (edge items) u v →
  ∃ i j, level_of res u = Some i ∧ level_of res v = Some j ∧ i < j.
Proof.
  intros Hlev Huv. induction Huv as [u v Huv|u w v Huw _ IH].
  - by eapply levels_edge_order.
  - destruct (levels_edge_order items res u w Hlev Huw) as (i & k & Hi & Hk & Hik).
    destruct IH as (k' & j & Hk' & Hj & Hkj).
    exists i, j. split_and!; [done|done|]. simplify_eq. lia.
Qed.

Lemma levels_ok_acyclic items res :
  levels items = Some (Ok res) → acyclic items.
Proof.
  intros Hlev c Hc.
  destruct (levels_path_order items res c c Hlev Hc) as (i & j & Hi & Hj & Hlt).
  simplify_eq. lia.
Qed.

(** ** An acyclic plan is levelled completely *)

Lemma tc_flip_edge items x y :
  tc (flip (edge items)) x y → tc (edge items) y x.
Proof.
  induction 1 as [x y Hxy|x y z Hxy _ IH].
  - by apply tc_once.
  - eapply tc_r; [exact IH|exact Hxy].
Qed.

Lemma acyclic_sn items c :
  deps_resolve items → acyclic items → sn (flip (edge items)) c.
Proof.
  intros Hres Hacyc. apply tc_finite_sn.
  - intros x Hx%tc_flip_edge. by apply (Hacyc x).
  - exists (names_of items). intros x Hx%tc_flip_edge.
    assert (∀ a b, tc (edge items) a b → a ∈ names_of items) as Hsrc.
    { intros a b. induction 1 as [a b Hab|a b d Hab _ _];
        by destruct (edge_names items a b Hres Hab). }
    by eapply Hsrc.
Qed.

Lemma acyclic_no_stuck items deg res c :
  deps_resolve items → acyclic items →
  loop_inv items deg [] res →
  c ∈ names_of items → c ∈ concat res.
Proof.
  intros Hres Hacyc [_ _ Hq _ _ _] Hc.
  pose proof (acyclic_sn items c Hres Hacyc) as Hsn.
  induction Hsn as [c _ IH].
  destruct (decide (c ∈ concat res)) as [|Hnot]; [done|].
  exfalso. eapply not_elem_of_nil. apply Hq. split_and!; [done|done|].
  apply remaining_zero. intros d Hd. apply IH; [exact Hd|].
  by destruct (edge_names items d c Hres Hd).
Qed.

Lemma acyclic_levels_ok items :
  deps_resolve items → acyclic items →
  ∃ res, levels items = Some (Ok res).
Proof.
  intros Hres Hacyc.
  destruct (levels_run items Hres) as (deg & res & Hinv & Hlev).
  exists res. rewrite Hlev.
  destruct (any_positive deg) eqn:Hpos; [|done]. exfalso.
  apply any_positive_true in Hpos as (c & z & Hc & Hz).
  pose proof (inv_deg _ _ _ _ Hinv c) as Hdeg. rewrite Hc in Hdeg.
  case_decide as Hcn; [|done]. injection Hdeg as ->.
  pose proof (acyclic_no_stuck items deg res c Hres Hacyc Hinv Hcn) as HcP.
  apply (inv_done _ _ _ _ Hinv) in HcP as [_ Hz0]. lia.
Qed.

(** ** Levels and topological depth *)

Lemma remaining_pos items P c :
  remaining items P c ≠ 0 → ∃ d, edge items d c ∧ d ∉ P.
Proof.
  unfold remaining. intros Hpos.
  destruct (filter _ _) as [|d ds] eqn:Hf; [done|].
  assert (d ∈ filter (λ d, d ∉ P) (all_deps items c)) as Hd
    by (rewrite Hf; by left).
  apply list_elem_of_filter in Hd as [HdP Hd%all_deps_elem_of]. by exists d.
Qed.

Lemma layered_first items res lv c d :
  layered items res → res !! 0 = Some lv → c ∈ lv → ¬ edge items d c.
Proof.
  intros Hlay H0 Hc Hd.
  destruct (Hlay 0 lv H0) as (_ & _ & _ & Hmem).
  apply Hmem in Hc as (_ & _ & Hz). rewrite take_0 in Hz. simpl in Hz.
  eapply not_elem_of_nil. eapply remaining_zero; [exact Hz|exact Hd].
Qed.

Lemma layered_prev items res i lv c :
  layered items res → res !! S i = Some lv → c ∈ lv →
  ∃ d li, edge items d c ∧ res !! i = Some li ∧ d ∈ li.
Proof.
  intros Hlay HSi Hc.
  destruct (Hlay (S i) lv HSi) as (_ & _ & _ & Hmem).
  apply Hmem in Hc as (Hcn & Hnot & Hz).
  destruct (res !! i) as [li|] eqn:Hi.
  2:{ apply lookup_ge_None in Hi. apply lookup_lt_Some in HSi. lia. }
  destruct (Hlay i li Hi) as (_ & _ & _ & Hmemi).
  assert (c ∉ concat (take i res)) as Hnoti.
  { intros (k & l & Hk & Hkl & Hcl)%elem_of_concat_take.
    apply Hnot, elem_of_concat_take. exists k, l. split_and!; [lia|done|done]. }
  assert (c ∉ li) as Hcli.
  { intros Hcl. apply Hnot, elem_of_concat_take.
    exists i, li. split_and!; [lia|done|done]. }
  assert (remaining items (concat (take i res)) c ≠ 0) as Hrem.
  { intros Hz0. apply Hcli, Hmemi. done. }
  apply remaining_pos in Hrem as (d & Hd & Hdnot).
  exists d, li. split_and!; [done|done|].
  pose proof (proj1 (remaining_zero _ _ _) Hz d Hd) as Hd'.
  apply elem_of_concat_take in Hd' as (k & l & Hk & Hkl & Hdl).
  destruct (decide (k = i)) as [->|Hne]; [by simplify_eq|].
  exfalso. apply Hdnot, elem_of_concat_take.
  exists k, l. split_and!; [lia|done|done].
Qed.

Lemma chain_to_names items j c :
  chain_to items j c → c ∈ names_of items.
Proof.
  destruct 1 as [c Hc|k d c _ (it & Hit & <- & _)]; [done|].
  by apply list_elem_of_fmap_2.
Qed.

Lemma level_chain items res i :
  layered items res →
  ∀ lv c, res !! i = Some lv → c ∈ lv → chain_to items i c.
Proof.
  intros Hlay. induction i as [|i IH]; intros lv c Hi Hc.
  - constructor. destruct (Hlay 0 lv Hi) as (_ & _ & _ & Hmem).
    by apply Hmem in Hc as [? _].
  - destruct (layered_prev items res i lv c Hlay Hi Hc) as (d & li & Hd & Hli & Hdl).
    eapply chain_to_S; [|exact Hd]. by eapply IH.
Qed.

Lemma chain_level_bound items res j c :
  levels items = Some (Ok res) →
  chain_to items j c → ∀ i, level_of res c = Some i → j ≤ i.
Proof.
  intros Hlev. induction 1 as [c Hc|k d c Hch IH Hdc]; intros i Hi; [lia|].
  destruct (levels_edge_order items res d c Hlev Hdc) as (i' & i'' & Hd & Hc & Hlt).
  simplify_eq. specialize (IH i' Hd). lia.
Qed.

Lemma level_depth items res i c :
  levels items = Some (Ok res) →
  (∃ lv, res !! i = Some lv ∧ c ∈ lv) ↔ depth_is items i c.
Proof.
  intros Hlev.
  destruct (levels_ok_inv items res Hlev) as (Hres & Hlay & Hnd & Hcov).
  split.
  - intros (lv & Hi & Hc). split; [by eapply level_chain|].
    intros j Hj. eapply chain_level_bound; [done|done|].
    by eapply level_of_unique.
  - intros [Hchain Hmax].
    pose proof (chain_to_names _ _ _ Hchain) as Hc.
    apply Hcov, elem_of_concat in Hc as (k & lv & Hk & Hc).
    assert (i ≤ k).
    { eapply chain_level_bound; [done|done|]. by eapply level_of_unique. }
    assert (k ≤ i) by (apply Hmax; by eapply level_chain).
    assert (k = i) as -> by lia. by exists lv.
Qed.

Lemma levels_sorted items res lv :
  levels items = Some (Ok res) → lv ∈ res → Sorted str_le lv ∧ NoDup lv.
Proof.
  intros (_ & Hlay & _)%levels_ok_inv (i & Hi)%list_elem_of_lookup.
  destruct (Hlay i lv Hi) as (_ & ? & ? & _). done.
Qed.

(** ** Independence of the order of the items *)

Lemma kahn_loop_ext fuel ch ch' : ∀ in_deg q res,
  (∀ n, sorted (children_of ch n) = sorted (children_of ch' n)) →
  kahn_loop fuel ch in_deg q res = kahn_loop fuel ch' in_deg q res.
Proof.
  intros in_deg q res Hext. revert in_deg q res.
  assert (∀ n st, visit_node ch st n = visit_node ch' st n) as Hnode.
  { intros n st. unfold visit_node. fold (children_of ch n) (children_of ch' n).
    by rewrite Hext. }
  assert (∀ l st, foldM (visit_node ch) st l = foldM (visit_node ch') st l)
    as Hfold.
  { induction l as [|n l IH]; intros st; [done|].
    rewrite !foldM_cons, Hnode. destruct (visit_node ch' st n); simpl; auto. }
  induction fuel as [|fuel IH]; intros in_deg q res; [done|].
  simpl. destruct q as [|x q]; [done|].
  unfold process_level. rewrite Hfold.
  destruct (foldM _ _ _) as [[deg' q']|e]; [apply IH|done].
Qed.

Lemma names_of_perm items items' :
  items' ≡ₚ items → names_of items' ≡ₚ names_of items.
Proof. intros H. unfold names_of. by rewrite H. Qed.

Lemma all_deps_perm items items' c :
  items' ≡ₚ items → all_deps items' c ≡ₚ all_deps items c.
Proof. intros H. unfold all_deps. by rewrite H. Qed.

Lemma deps_resolve_perm items items' :
  items' ≡ₚ items → deps_resolve items → deps_resolve items'.
Proof.
  intros Hperm Hres. unfold deps_resolve in *. rewrite Hperm.
  eapply Forall_impl; [exact Hres|]. intros it Hit. simpl in *.
  eapply Forall_impl; [exact Hit|]. intros d Hd. simpl in *.
  by rewrite (names_of_perm _ _ Hperm).
Qed.

Lemma levels_perm items items' res :
  items' ≡ₚ items →
  levels items = Some (Ok res) → levels items' = Some (Ok res).
Proof.
  intros Hperm Hlev.
  destruct (levels_ok_inv items res Hlev) as (Hres & _).
  pose proof (deps_resolve_perm _ _ Hperm Hres) as Hres'.
  destruct (build_ok items Hres) as (ch & deg & Hb & Hdeg & Hch).
  destruct (build_ok items' Hres') as (ch' & deg' & Hb' & Hdeg' & Hch').
  assert (deg' = deg) as ->.
  { apply map_eq. intros c. rewrite Hdeg, Hdeg'.
    rewrite (Permutation_length (all_deps_perm _ _ c Hperm)).
    destruct (decide (c ∈ names_of items)) as [Hc|Hc].
    - rewrite decide_True; [done|]. by rewrite (names_of_perm _ _ Hperm).
    - rewrite decide_False; [done|]. by rewrite (names_of_perm _ _ Hperm). }
  assert (∀ n, sorted (children_of ch' n) = sorted (children_of ch n)) as Hext.
  { intros n. apply sorted_unique, perm_cnt. intros c.
    rewrite Hch, Hch'. apply cnt_perm. by apply all_deps_perm. }
  rewrite <- Hlev. unfold levels, levels_fuel. rewrite Hb, Hb'.
  rewrite (Permutation_length Hperm).
  by rewrite (kahn_loop_ext _ ch' ch _ _ _ Hext).
Qed.

Lemma acyclic_by_rank items (f : string → nat) :
  Forall (λ it, Forall (λ d, f d < f (_name_of it)) (deps_of it)) items →
  acyclic items.
Proof.
  intros Hf.
  assert (∀ u v, edge items u v → f u < f v) as Hedge.
  { intros u v (it & Hit & <- & Hu).
    rewrite Forall_forall in Hf. specialize (Hf it Hit).
    rewrite Forall_forall in Hf. by apply Hf. }
  assert (∀ u v, tc (edge items) u v → f u < f v) as Hpath.
  { induction 1 as [u v Huv|u w v Huw _ IH]; [by apply Hedge|].
    specialize (Hedge u w Huw). lia. }
  intros c Hc. specialize (Hpath c c Hc). lia.
Qed.

(** * The claims about the merge-order engine *)

(** C1 (topological validity).  When the resolved names are unique and
    every dependency resolves, and [levels] returns levels, then for
    every dependency edge [u → v] both ends lie in exactly one level
    each, and the index of the level of [u] is strictly smaller than
    the index of the level of [v]. *)
Theorem levels_topological_validity items res u v :
  unique_names items →
  deps_resolve items →
  levels items = Some (Ok res) →
  edge items u v →
  ∃ i j,
    level_of res u = Some i ∧ level_of res v = Some j ∧ i < j
    ∧ (∀ k lv, res !! k = Some lv → u ∈ lv → k = i)
    ∧ (∀ k lv, res !! k = Some lv → v ∈ lv → k = j).
Proof.
  intros _ _ Hlev Huv.
  destruct (levels_edge_order items res u v Hlev Huv) as (i & j & Hi & Hj & Hlt).
  destruct (levels_ok_inv items res Hlev) as (_ & _ & Hnd & _).
  exists i, j. split_and!; try done.
  - intros k lv Hk Hu. pose proof (level_of_unique res u k lv Hnd Hk Hu). congruence.
  - intros k lv Hk Hv. pose proof (level_of_unique res v k lv Hnd Hk Hv). congruence.
Qed.

Lemma levels_topological_validity_witness :
  ∃ i j,
    level_of [["A"; "C"]; ["B"]] "A" = Some i
    ∧ level_of [["A"; "C"]; ["B"]] "B" = Some j ∧ i < j
    ∧ (∀ k lv, [["A"; "C"]; ["B"]] !! k = Some lv → "A" ∈ lv → k = i)
    ∧ (∀ k lv, [["A"; "C"]; ["B"]] !! k = Some lv → "B" ∈ lv → k = j).
Proof.
  apply (levels_topological_validity [itA; itB; itC]).
  - by_compute.
  - by_compute.
  - vm_compute. reflexivity.
  - exists itB. split_and!.
    + by_compute.
    + reflexivity.
    + by_compute.
Defined.

(** C2 (cycle detection).  When the resolved names are unique and every
    dependency resolves, and the dependency relation has a cycle, then
    [levels] raises [CycleError]: the result carries no level list. *)
Theorem levels_cycle_error items :
  unique_names items →
  deps_resolve items →
  has_cycle items →
  levels items = Some (Raise (CycleError "dependency cycle detected")).
Proof.
  intros _ Hres [c Hc].
  destruct (levels_run items Hres) as (deg & res & _ & Hlev).
  destruct (any_positive deg); [done|].
  by destruct (levels_ok_acyclic items res Hlev c).
Qed.

Lemma levels_cycle_error_witness :
  levels [cyA; cyB] = Some (Raise (CycleError "dependency cycle detected")).
Proof.
  apply levels_cycle_error.
  - by_compute.
  - by_compute.
  - exists "A". apply (tc_l _ "A" "B" "A"); [|apply tc_once].
    + exists cyB. split_and!; [|reflexivity|];
        by_compute.
    + exists cyA. split_and!; [|reflexivity|];
        by_compute.
Defined.

(** C3 (unknown dependency).  If some entry of some item's [deps] is not
    a resolved name, [levels] fails while the graph is built, before any
    levelling, with the [KeyError] whose message names the missing
    dependency and the resolved name of the item that lists it; the
    violation reported is the first one in item order and, within the
    item, in the order of its [deps]. *)
Theorem levels_unknown_dependency items :
  (∃ it d, it ∈ items ∧ d ∈ deps_of it ∧ d ∉ names_of items) →
  ∃ pre it post ds1 d ds2,
    items = pre ++ it :: post
    ∧ deps_of it = ds1 ++ d :: ds2
    ∧ (∀ it' d', it' ∈ pre → d' ∈ deps_of it' → d' ∈ names_of items)
    ∧ (∀ d', d' ∈ ds1 → d' ∈ names_of items)
    ∧ (d ∉ names_of items)
    ∧ build items
      = Raise (KeyError ("unknown dep '" +:+ d +:+ "' for item '"
                         +:+ _name_of it +:+ "'"))
    ∧ levels items
      = Some (Raise (KeyError ("unknown dep '" +:+ d +:+ "' for item '"
                               +:+ _name_of it +:+ "'"))).
Proof.
  intros (it0 & d0 & Hit0 & Hd0 & Hnot).
  destruct (build_unknown items)
    as (pre & it & post & ds1 & d & ds2 & Hitems & Hdeps & Hpre & Hds1 & Hd & Hb).
  { intros Hres. unfold deps_resolve in Hres. rewrite Forall_forall in Hres.
    specialize (Hres it0 Hit0). rewrite Forall_forall in Hres.
    by apply Hnot, Hres. }
  exists pre, it, post, ds1, d, ds2. split_and!; try done.
  - intros it' d' Hit' Hd'. rewrite Forall_forall in Hpre.
    specialize (Hpre it' Hit'). rewrite Forall_forall in Hpre. by apply Hpre.
  - intros d' Hd'. rewrite Forall_forall in Hds1. by apply Hds1.
  - by apply levels_build_raise.
Qed.

Lemma levels_unknown_dependency_witness :
  ∃ pre it post ds1 d ds2,
    [itBX] = pre ++ it :: post
    ∧ deps_of it = ds1 ++ d :: ds2
    ∧ (∀ it' d', it' ∈ pre → d' ∈ deps_of it' → d' ∈ names_of [itBX])
    ∧ (∀ d', d' ∈ ds1 → d' ∈ names_of [itBX])
    ∧ (d ∉ names_of [itBX])
    ∧ build [itBX]
      = Raise (KeyError ("unknown dep '" +:+ d +:+ "' for item '"
                         +:+ _name_of it +:+ "'"))
    ∧ levels [itBX]
      = Some (Raise (KeyError ("unknown dep '" +:+ d +:+ "' for item '"
                               +:+ _name_of it +:+ "'"))).
Proof.
  apply (levels_unknown_dependency [itBX]).
  exists itBX, "X". split_and!; by_compute.
Defined.

(** C4 (partition completeness).  When the resolved names are unique,
    every dependency resolves and the dependency relation is acyclic,
    [levels] returns levels whose concatenation is a permutation of the
    resolved names: every name lies in exactly one level, none is
    repeated and none is left out. *)
Theorem levels_partition items :
  unique_names items →
  deps_resolve items →
  acyclic items →
  ∃ res,
    levels items = Some (Ok res)
    ∧ concat res ≡ₚ names_of items
    ∧ (∀ c, c ∈ names_of items →
         ∃ i, level_of res c = Some i
              ∧ ∀ k lv, res !! k = Some lv → c ∈ lv → k = i)
    ∧ (∀ lv c, lv ∈ res → c ∈ lv → c ∈ names_of items).
Proof.
  intros Huniq Hres Hacyc.
  destruct (acyclic_levels_ok items Hres Hacyc) as [res Hlev].
  destruct (levels_ok_inv items res Hlev) as (_ & Hlay & Hnd & Hcov).
  exists res. split_and!; [done| | |].
  - by apply NoDup_Permutation.
  - intros c (i & lv & Hi & Hc)%Hcov%elem_of_concat.
    exists i. split; [by eapply level_of_unique|].
    intros k lv' Hk Hc'.
    pose proof (level_of_unique res c i lv Hnd Hi Hc).
    pose proof (level_of_unique res c k lv' Hnd Hk Hc'). congruence.
  - intros lv c (i & Hi)%list_elem_of_lookup Hc.
    apply Hcov, elem_of_concat. by exists i, lv.
Qed.

Lemma levels_partition_witness :
  ∃ res,
    levels [itA; itB; itC] = Some (Ok res)
    ∧ concat res ≡ₚ names_of [itA; itB; itC]
    ∧ (∀ c, c ∈ names_of [itA; itB; itC] →
         ∃ i, level_of res c = Some i
              ∧ ∀ k lv, res !! k = Some lv → c ∈ lv → k = i)
    ∧ (∀ lv c, lv ∈ res → c ∈ lv → c ∈ names_of [itA; itB; itC]).
Proof.
  apply levels_partition.
  - by_compute.
  - by_compute.
  - apply (acyclic_by_rank _ (λ s, if decide (s = "B") then 1 else 0)).
    by_compute.
Defined.

(** C5 (order independence).  If [levels] succeeds on a list of items,
    it returns the very same levels on every permutation of the list. *)
Theorem levels_order_independent items items' res :
  levels items = Some (Ok res) →
  items' ≡ₚ items →
  levels items' = Some (Ok res).
Proof. intros Hlev Hperm. by apply (levels_perm items). Qed.

Lemma levels_order_independent_witness :
  levels [itC; itB; itA] = Some (Ok [["A"; "C"]; ["B"]]).
Proof.
  apply (levels_order_independent [itA; itB; itC]).
  - vm_compute. reflexivity.
  - exact (reverse_Permutation [itA; itB; itC]).
Defined.

(** C6 (levels are sorted and are the depth classes).  If [levels]
    succeeds, every level is sorted in the lexicographic order of
    strings and has no repetition, and level [i] holds exactly the
    resolved names whose topological depth, the length of the longest
    dependency chain that ends at them, is [i].  In particular the items
    [A], [B] (which depends on [A]) and [C] yield [[A, C], [B]]. *)
Theorem levels_sorted_depth_classes items res :
  levels items = Some (Ok res) →
  (∀ lv, lv ∈ res → Sorted str_le lv ∧ NoDup lv)
  ∧ (∀ i c, (∃ lv, res !! i = Some lv ∧ c ∈ lv) ↔ depth_is items i c)
  ∧ levels [itA; itB; itC] = Some (Ok [["A"; "C"]; ["B"]]).
Proof.
  intros Hlev. split_and!.
  - intros lv Hlv. by eapply levels_sorted.
  - intros i c. by apply level_depth.
  - vm_compute. reflexivity.
Qed.

Lemma levels_sorted_depth_classes_witness :
  (∀ lv, lv ∈ [["A"; "C"]; ["B"]] → Sorted str_le lv ∧ NoDup lv)
  ∧ (∀ i c, (∃ lv, [["A"; "C"]; ["B"]] !! i = Some lv ∧ c ∈ lv)
            ↔ depth_is [itA; itB; itC] i c)
  ∧ levels [itA; itB; itC] = Some (Ok [["A"; "C"]; ["B"]]).
Proof.
  apply (levels_sorted_depth_classes [itA; itB; itC]).
  vm_compute. reflexivity.
Defined.

(** * The plan validator *)

Lemma lstrip_blank s : blank s → lstrip s = "".
Proof.
  unfold blank. induction s as [|c s IH]; simpl; [done|].
  intros [Hc Hs]%Forall_cons. rewrite Hc. by apply IH.
Qed.

Lemma strip_blank s : blank s → strip s = "".
Proof. intros H. unfold strip. by rewrite (lstrip_blank s H). Qed.

Lemma nonempty_str_false v :
  v = None ∨ (∃ w, v = Some w ∧ ¬ is_str w) ∨ (∃ s, v = Some (JStr s) ∧ blank s) →
  nonempty_str v = false.
Proof.
  intros [->|[(w & -> & Hw)|(s & -> & Hs)]]; simpl; [done| |].
  - destruct w; try done. destruct Hw. by eexists.
  - rewrite (strip_blank s Hs). done.
Qed.

Lemma name_of_item_of_json o : _name_of (item_of_json o) = resolved_name o.
Proof.
  unfold _name_of, resolved_name, item_of_json. simpl.
  destruct (o !! "name") as [[]|]; done.
Qed.

(** ** The loop over the items *)

Lemma check_items_app l1 : ∀ idx l2 acc,
  check_items idx (l1 ++ l2) acc =
    match check_items idx l1 acc with
    | inl msg => inl msg
    | inr acc' => check_items (idx + length l1) l2 acc'
    end.
Proof.
  induction l1 as [|it l1 IH]; intros idx l2 acc; simpl.
  - by rewrite Nat.add_0_r.
  - destruct (check_item idx it) as [msg|n]; [done|].
    rewrite IH. by rewrite Nat.add_succ_r.
Qed.

Lemma check_item_name idx it n :
  check_item idx it = inr n → n = item_name it.
Proof.
  unfold check_item. destruct it; try done.
  repeat case_match; try done. by intros [= <-].
Qed.

Lemma check_items_names items : ∀ idx acc names,
  check_items idx items acc = inr names →
  names = acc ++ (item_name <$> items)
  ∧ ∀ k it, items !! k = Some it → check_item (idx + k) it = inr (item_name it).
Proof.
  induction items as [|it items IH]; intros idx acc names; simpl.
  - intros [= <-]. split; [by rewrite app_nil_r|]. intros k it' Hk.
    by rewrite lookup_nil in Hk.
  - destruct (check_item idx it) as [msg|n] eqn:Hit; [done|].
    intros [-> Hrest]%IH. apply check_item_name in Hit as Hn. subst n.
    split; [by rewrite <- app_assoc|].
    intros [|k] it' Hk; simpl in Hk.
    + injection Hk as <-. by rewrite Nat.add_0_r.
    + rewrite Nat.add_succ_r. by apply Hrest.
Qed.

Lemma check_gate_error_prefix idx gidx g msg :
  check_gate idx gidx g = Some msg → ∃ rest, msg = "items/" +:+ rest.
Proof.
  unfold check_gate, gate_path.
  destruct g; repeat case_match; intros [= <-]; by eexists.
Qed.

Lemma check_gates_error_prefix idx gs : ∀ gidx msg,
  check_gates idx gidx gs = Some msg → ∃ rest, msg = "items/" +:+ rest.
Proof.
  induction gs as [|g gs IH]; intros gidx msg; simpl; [done|].
  destruct (check_gate idx gidx g) as [m|] eqn:Hg; [|by apply IH].
  intros [= <-]. by eapply check_gate_error_prefix.
Qed.

Lemma check_gates_field_error_prefix idx v msg :
  check_gates_field idx v = Some msg → ∃ rest, msg = "items/" +:+ rest.
Proof.
  unfold check_gates_field. destruct v as [[]|]; try done;
    try (intros [= <-]; by eexists).
  apply check_gates_error_prefix.
Qed.

Lemma check_item_error_prefix idx it msg :
  check_item idx it = inl msg → ∃ rest, msg = "items/" +:+ rest.
Proof.
  unfold check_item. destruct it as [| | | | |o].
  1-5: intros [= <-]; by eexists.
  destruct (nonempty_str (o !! "repo")); simpl; [|intros [= <-]; by eexists].
  destruct (nonempty_str (o !! "branch")); simpl; [|intros [= <-]; by eexists].
  destruct (opt_str (o !! "name")); simpl; [|intros [= <-]; by eexists].
  destruct (deps_ok (o !! "deps")); simpl; [|intros [= <-]; by eexists].
  destruct (check_gates_field idx (o !! "gates")) as [m|] eqn:Hg; [|done].
  intros [= <-]. by eapply check_gates_field_error_prefix.
Qed.

Lemma check_items_error_prefix items : ∀ idx acc msg,
  check_items idx items acc = inl msg → ∃ rest, msg = "items/" +:+ rest.
Proof.
  induction items as [|it items IH]; intros idx acc msg; simpl; [done|].
  destruct (check_item idx it) as [m|n] eqn:Hit.
  - intros [= <-]. by eapply check_item_error_prefix.
  - apply IH.
Qed.

Lemma shape_checks_error data msg :
  shape_checks data = inl msg → msg ≠ duplicate_msg.
Proof.
  unfold shape_checks. destruct data as [| | | | |o]; try (by intros [= <-]).
  case_match; [by intros [= <-]|].
  destruct (o !! "items") as [[]|]; try (by intros [= <-]).
  intros (rest & ->)%check_items_error_prefix. done.
Qed.

Lemma shape_checks_ok data names :
  shape_checks data = inr names →
  ∃ o items,
    data = JObj o ∧ nonempty_str (o !! "target") = true
    ∧ o !! "items" = Some (JArr items)
    ∧ check_items 0 items [] = inr names.
Proof.
  unfold shape_checks. destruct data as [| | | | |o]; try done.
  destruct (nonempty_str (o !! "target")) eqn:Ht; simpl; [|done].
  destruct (o !! "items") as [[]|] eqn:Hitems; try done.
  intros Hchk. by eexists _, _.
Qed.

Lemma check_items_all items : ∀ idx acc,
  (∀ k it, items !! k = Some it → ∃ n, check_item (idx + k) it = inr n) →
  check_items idx items acc = inr (acc ++ (item_name <$> items)).
Proof.
  induction items as [|it items IH]; intros idx acc Hall; simpl.
  - by rewrite app_nil_r.
  - destruct (Hall 0 it) as [n Hn]; [done|]. rewrite Nat.add_0_r in Hn.
    rewrite Hn. apply check_item_name in Hn as ->.
    rewrite IH, <- app_assoc; [done|].
    intros k it' Hk. replace (S idx + k) with (idx + S k) by lia.
    by apply Hall.
Qed.

(** ** The uniqueness check (lines 74-75) *)

Lemma size_list_to_set_le (l : list string) :
  size (list_to_set l : gset string) ≤ length l
  ∧ (size (list_to_set l : gset string) = length l ↔ NoDup l).
Proof.
  induction l as [|x l [IHle IHeq]]; simpl.
  - split; [done|]. split; [constructor|done].
  - rewrite NoDup_cons. destruct (decide (x ∈ l)) as [Hx|Hx].
    + assert ({[x]} ∪ list_to_set l = (list_to_set l : gset string)) as ->.
      { apply subseteq_union_1_L, singleton_subseteq_l.
        by apply elem_of_list_to_set. }
      split; [lia|]. split; [lia|tauto].
    + rewrite size_union, size_singleton.
      2:{ apply disjoint_singleton_l. by rewrite elem_of_list_to_set. }
      split; [lia|]. rewrite <- IHeq. split; [intros; split; [done|lia]|lia].
Qed.

Lemma has_duplicates_true l : has_duplicates l = true ↔ ¬ NoDup l.
Proof.
  unfold has_duplicates. rewrite bool_decide_eq_true.
  by rewrite <- (proj2 (size_list_to_set_le l)).
Qed.

Lemma not_NoDup_indices (l : list string) :
  ¬ NoDup l ↔ ∃ i j x, i ≠ j ∧ l !! i = Some x ∧ l !! j = Some x.
Proof.
  split.
  - induction l as [|x l IH]; intros Hnd; [destruct Hnd; constructor|].
    destruct (decide (x ∈ l)) as [Hx|Hx].
    + apply list_elem_of_lookup in Hx as [j Hj]. by exists 0, (S j), x.
    + destruct IH as (i & j & y & Hij & Hi & Hj).
      { intros Hl. apply Hnd. by constructor. }
      exists (S i), (S j), y. split_and!; [lia|done|done].
  - intros (i & j & x & Hij & Hi & Hj) Hnd.
    apply Hij. by eapply NoDup_lookup.
Qed.

Lemma fallback_validate_shape_error data msg :
  shape_checks data = inl msg →
  _fallback_validate data = (false, Some msg) ∧ msg ≠ duplicate_msg.
Proof.
  intros H. split; [|by eapply shape_checks_error].
  unfold _fallback_validate. by rewrite H.
Qed.

Lemma shape_checks_plan o items :
  nonempty_str (o !! "target") = true →
  o !! "items" = Some (JArr items) →
  shape_checks (JObj o) = check_items 0 items [].
Proof. intros Ht Hi. unfold shape_checks. by rewrite Ht, Hi. Qed.

(** * The claims about the validator *)

(** C7 (duplicate names).  For a plan document (a non-blank [target], an
    array of [items]): when every item passes its per-item shape checks,
    the fallback validator answers [(False, duplicate-names error)] if
    and only if two distinct items have equal resolved names, and it
    accepts the document otherwise; when some item fails a per-item
    check, the answer is an error other than the duplicate-names error,
    so the uniqueness check runs only after every per-item check.  The
    resolved name of an item is its explicit non-empty name, or
    [repo@branch] when the name is absent. *)
Theorem fallback_duplicate_names o items :
  nonempty_str (o !! "target") = true →
  o !! "items" = Some (JArr items) →
  ((∀ idx it, items !! idx = Some it → ∃ n, check_item idx it = inr n) →
     (_fallback_validate (JObj o) = (false, Some duplicate_msg)
      ↔ ∃ i j it1 it2, i ≠ j ∧ items !! i = Some it1 ∧ items !! j = Some it2
                       ∧ item_name it1 = item_name it2)
     ∧ (_fallback_validate (JObj o) = (true, None)
        ↔ ¬ ∃ i j it1 it2, i ≠ j ∧ items !! i = Some it1 ∧ items !! j = Some it2
                           ∧ item_name it1 = item_name it2))
  ∧ ((∃ idx it msg, items !! idx = Some it ∧ check_item idx it = inl msg) →
     ∃ msg, _fallback_validate (JObj o) = (false, Some msg)
            ∧ msg ≠ duplicate_msg)
  ∧ (∀ oi n, oi !! "name" = Some (JStr n) → n ≠ "" → item_name (JObj oi) = n)
  ∧ (∀ oi r b, oi !! "name" = None →
       oi !! "repo" = Some (JStr r) → oi !! "branch" = Some (JStr b) →
       item_name (JObj oi) = r +:+ "@" +:+ b).
Proof.
  intros Ht Hi. pose proof (shape_checks_plan o items Ht Hi) as Hshape.
  split_and!.
  3:{ intros oi n Hn Hne. simpl. unfold resolved_name. rewrite Hn.
      by rewrite decide_False. }
  3:{ intros oi r b Hn Hr Hb. simpl. unfold resolved_name, str_at.
      by rewrite Hn, Hr, Hb. }
  - intros Hall.
    assert (shape_checks (JObj o) = inr (item_name <$> items)) as Hok.
    { rewrite Hshape. by apply (check_items_all items 0 []). }
    assert (¬ NoDup (item_name <$> items)
            ↔ ∃ i j it1 it2, i ≠ j ∧ items !! i = Some it1
                             ∧ items !! j = Some it2
                             ∧ item_name it1 = item_name it2) as Hdup.
    { rewrite not_NoDup_indices. split.
      - intros (i & j & x & Hij & Hi' & Hj').
        apply list_lookup_fmap_Some in Hi' as (it1 & -> & Hi1).
        apply list_lookup_fmap_Some in Hj' as (it2 & Heq & Hi2).
        by exists i, j, it1, it2.
      - intros (i & j & it1 & it2 & Hij & Hi1 & Hi2 & Heq).
        exists i, j, (item_name it1). split_and!; [done| |].
        + by rewrite list_lookup_fmap, Hi1.
        + by rewrite list_lookup_fmap, Hi2, Heq. }
    unfold _fallback_validate. rewrite Hok, <- Hdup, <- has_duplicates_true.
    destruct (has_duplicates _); split; split; done.
  - intros (idx & it & msg & Hit & Hmsg).
    destruct (check_items 0 items []) as [msg'|names] eqn:Hs.
    + exists msg'. by apply fallback_validate_shape_error.
    + apply check_items_names in Hs as [_ Hall].
      specialize (Hall idx it Hit). simpl in Hall. congruence.
Qed.

Lemma fallback_duplicate_names_witness :
  _fallback_validate
    (JObj (plan_of [JObj (item_named "r" "a" "A"); JObj (item_named "r" "b" "A")]))
  = (false, Some duplicate_msg).
Proof.
  set (items := [JObj (item_named "r" "a" "A"); JObj (item_named "r" "b" "A")]).
  destruct (fallback_duplicate_names (plan_of items) items) as (Hpass & _).
  - vm_compute. reflexivity.
  - vm_compute. reflexivity.
  - destruct Hpass as [Hdup _].
    + intros [|[|idx]] it Hit; simpl in Hit; [| |done];
        injection Hit as <-; eexists; vm_compute; reflexivity.
    + apply Hdup. exists 0, 1, (JObj (item_named "r" "a" "A")),
        (JObj (item_named "r" "b" "A")).
      split_and!; [lia|reflexivity|reflexivity|vm_compute; reflexivity].
Defined.

(** C8 (missing branch).  In a plan document whose [target] is valid and
    whose items before index [idx] pass every check, if the item at
    [idx] is an object with a valid [repo] (so that [branch] is the first
    offending field) and it lacks [branch], or its [branch] is not a
    string or is blank, the fallback validator answers [False] with the
    single error ["items/<idx>/branch: required non-empty string"]. *)
Theorem fallback_missing_branch o items idx oi :
  nonempty_str (o !! "target") = true →
  o !! "items" = Some (JArr items) →
  (∀ k it, k < idx → items !! k = Some it → ∃ n, check_item k it = inr n) →
  items !! idx = Some (JObj oi) →
  nonempty_str (oi !! "repo") = true →
  (oi !! "branch" = None
   ∨ (∃ w, oi !! "branch" = Some w ∧ ¬ is_str w)
   ∨ (∃ s, oi !! "branch" = Some (JStr s) ∧ blank s)) →
  _fallback_validate (JObj o)
  = (false, Some (("items/" +:+ str_of_nat idx)
                  +:+ "/branch: required non-empty string")).
Proof.
  intros Ht Hi Hearlier Hidx Hrepo Hbranch%nonempty_str_false.
  unfold _fallback_validate.
  rewrite (shape_checks_plan o items Ht Hi).
  rewrite <- (take_drop_middle items idx (JObj oi) Hidx), check_items_app.
  rewrite (check_items_all (take idx items) 0 []).
  2:{ intros k it [Hk Hlt]%lookup_take_Some. by apply Hearlier. }
  rewrite length_take_le by (apply lookup_lt_Some in Hidx; lia).
  simpl. by rewrite Hrepo, Hbranch.
Qed.

Lemma fallback_missing_branch_witness :
  _fallback_validate
    (JObj (plan_of [jobj [("repo", JStr "org/repo"); ("name", JStr "A")]]))
  = (false, Some "items/0/branch: required non-empty string").
Proof.
  apply (fallback_missing_branch _
           [jobj [("repo", JStr "org/repo"); ("name", JStr "A")]] 0
           (list_to_map [("repo", JStr "org/repo"); ("name", JStr "A")])).
  - vm_compute. reflexivity.
  - vm_compute. reflexivity.
  - intros k it Hk. lia.
  - reflexivity.
  - vm_compute. reflexivity.
  - left. vm_compute. reflexivity.
Defined.

(** C9 (an empty name counts as absent).  For an item whose [name] is
    present and is the empty string, with [repo] [r] and [branch] [b]:
    the engine resolves its name to [r@b]; the fallback validator accepts
    the empty name as a string, and the name it enters in the uniqueness
    check is [r@b] as well. *)
Theorem empty_name_resolves_to_repo_at_branch r b ds o idx :
  _name_of (mkItem (Some "") r b ds) = r +:+ "@" +:+ b
  ∧ (o !! "name" = Some (JStr "") →
     o !! "repo" = Some (JStr r) →
     o !! "branch" = Some (JStr b) →
     opt_str (o !! "name") = true
     ∧ _name_of (item_of_json o) = r +:+ "@" +:+ b
     ∧ resolved_name o = r +:+ "@" +:+ b
     ∧ (strip r ≠ "" → strip b ≠ "" →
        deps_ok (o !! "deps") = true →
        check_gates_field idx (o !! "gates") = None →
        check_item idx (JObj o) = inr (r +:+ "@" +:+ b))
     ∧ (∀ p items names,
          p !! "items" = Some (JArr items) →
          items !! idx = Some (JObj o) →
          shape_checks (JObj p) = inr names →
          names !! idx = Some (r +:+ "@" +:+ b))).
Proof.
  split; [done|]. intros Hname Hrepo Hbranch.
  assert (resolved_name o = r +:+ "@" +:+ b) as Hres.
  { unfold resolved_name, str_at. by rewrite Hname, Hrepo, Hbranch. }
  split_and!.
  - by rewrite Hname.
  - by rewrite name_of_item_of_json.
  - done.
  - intros Hr Hb Hdeps Hgates. unfold check_item.
    rewrite Hrepo, Hbranch, Hname, Hdeps, Hgates. simpl.
    rewrite !bool_decide_eq_true_2 by done. simpl. by rewrite Hres.
  - intros p items names Hitems Hidx Hshape.
    apply shape_checks_ok in Hshape as (p' & items' & [= <-] & _ & Hitems' & Hchk).
    rewrite Hitems in Hitems'. injection Hitems' as <-.
    apply check_items_names in Hchk as [-> _]. simpl.
    by rewrite list_lookup_fmap, Hidx, <- Hres.
Qed.

Lemma empty_name_resolves_to_repo_at_branch_witness :
  _name_of (mkItem (Some "") "r" "a" None) = "r@a"
  ∧ check_item 0 (JObj (item_named "r" "a" "")) = inr "r@a"
  ∧ _fallback_validate
      (JObj (plan_of [JObj (item_named "r" "a" ""); JObj (item_named "r" "b" "")]))
    = (true, None).
Proof.
  destruct (empty_name_resolves_to_repo_at_branch "r" "a" None
              (item_named "r" "a" "") 0) as [Hengine Hvalidator].
  split; [exact Hengine|].
  destruct Hvalidator as (_ & _ & _ & Hitem & _); try reflexivity.
  split; [|vm_compute; reflexivity].
  apply Hitem; try (vm_compute; reflexivity); vm_compute; discriminate.
Defined.

(** C10, as stated, fails.  Of two items that both list a blank
    dependency, the one at index 1 is not the one the error names; and
    an item whose name is not a string is reported for its name, not for
    the blank dependency it also lists. *)
Lemma fallback_blank_dep_counterexample :
  (plan_of two_blank_deps !! "items" = Some (JArr two_blank_deps)
   ∧ two_blank_deps !! 1 = Some (JObj (item_blank_dep "b" " "))
   ∧ item_blank_dep "b" " " !! "deps" = Some (JArr [JStr " "])
   ∧ Forall is_str [JStr " "]
   ∧ blank " "
   ∧ _fallback_validate (JObj (plan_of two_blank_deps))
     = (false, Some "items/0/deps: expected array of strings")
   ∧ _fallback_validate (JObj (plan_of two_blank_deps))
     ≠ (false, Some "items/1/deps: expected array of strings"))
  ∧ (item_number_name !! "deps" = Some (JArr [JStr " "])
     ∧ _fallback_validate (JObj (plan_of [JObj item_number_name]))
       = (false, Some "items/0/name: expected string")
     ∧ _fallback_validate (JObj (plan_of [JObj item_number_name]))
       ≠ (false, Some "items/0/deps: expected array of strings")).
Proof.
  split; split_and!; try (vm_compute; reflexivity).
  - repeat constructor. by exists " ".
  - repeat constructor.
  - vm_compute. discriminate.
  - vm_compute. discriminate.
Qed.

(** C10, amended (blank dependency names).  If the item at index [idx]
    has a [deps] array of strings one of which is empty or made of
    whitespace only, the fallback validator answers [False]; and when
    everything checked before that item's [deps] is valid (the [target],
    the items before [idx], the item's [repo], [branch] and [name]) the
    error is ["items/<idx>/deps: expected array of strings"]. *)
Theorem fallback_blank_dep o items idx oi ds :
  o !! "items" = Some (JArr items) →
  items !! idx = Some (JObj oi) →
  oi !! "deps" = Some (JArr ds) →
  Forall is_str ds →
  (∃ s, JStr s ∈ ds ∧ blank s) →
  (∃ msg, _fallback_validate (JObj o) = (false, Some msg))
  ∧ (nonempty_str (o !! "target") = true →
     (∀ k it, k < idx → items !! k = Some it → ∃ n, check_item k it = inr n) →
     nonempty_str (oi !! "repo") = true →
     nonempty_str (oi !! "branch") = true →
     opt_str (oi !! "name") = true →
     _fallback_validate (JObj o) = (false, Some (deps_error idx))).
Proof.
  intros Hi Hidx Hdeps _ (s & Hs & Hblank).
  assert (deps_ok (oi !! "deps") = false) as Hbad.
  { rewrite Hdeps. simpl. apply not_true_iff_false.
    intros Hall. rewrite forallb_forall in Hall.
    specialize (Hall (JStr s)). simpl in Hall.
    rewrite (strip_blank s Hblank) in Hall.
    apply list_elem_of_In in Hs. specialize (Hall Hs). done. }
  split.
  - unfold _fallback_validate.
    destruct (shape_checks (JObj o)) as [msg|names] eqn:Hshape; [by exists msg|].
    apply shape_checks_ok in Hshape as (o' & items' & [= <-] & _ & Hi' & Hchk).
    rewrite Hi in Hi'. injection Hi' as <-.
    apply check_items_names in Hchk as [_ Hall].
    specialize (Hall idx (JObj oi) Hidx). unfold check_item in Hall.
    rewrite Hbad in Hall. by repeat case_match.
  - intros Ht Hearlier Hrepo Hbranch Hname. unfold _fallback_validate.
    rewrite (shape_checks_plan o items Ht Hi).
    rewrite <- (take_drop_middle items idx (JObj oi) Hidx), check_items_app.
    rewrite (check_items_all (take idx items) 0 []).
    2:{ intros k it [Hk Hlt]%lookup_take_Some. by apply Hearlier. }
    rewrite length_take_le by (apply lookup_lt_Some in Hidx; lia).
    simpl. by rewrite Hrepo, Hbranch, Hname, Hbad.
Qed.

Lemma fallback_blank_dep_witness :
  _fallback_validate (JObj (plan_of [JObj (item_blank_dep "a" " ")]))
  = (false, Some "items/0/deps: expected array of strings").
Proof.
  destruct (fallback_blank_dep (plan_of [JObj (item_blank_dep "a" " ")])
              [JObj (item_blank_dep "a" " ")] 0 (item_blank_dep "a" " ")
              [JStr " "]) as [_ Hfirst].
  - vm_compute. reflexivity.
  - reflexivity.
  - vm_compute. reflexivity.
  - repeat constructor. by exists " ".
  - exists " ". split; [by left|repeat constructor].
  - apply Hfirst; try (vm_compute; reflexivity).
    intros k it Hk. lia.
Defined.

(** * Further properties of the merge-order engine *)

(** ** A stuck name lies behind a cycle *)

Lemma walk_tc items p : walk items p →
  ∀ i j a b, i < j → p !! i = Some a → p !! j = Some b → tc (edge items) a b.
Proof.
  induction 1 as [c|d c p Hdc Hw IH]; intros i j a b Hij Hi Hj.
  - destruct i, j; simpl in *; try lia; by rewrite lookup_nil in Hj.
  - destruct j as [|j]; [lia|]. destruct i as [|i]; simpl in *.
    + injection Hi as <-. destruct j as [|j]; simpl in *.
      * injection Hj as <-. by apply tc_once.
      * eapply tc_l; [exact Hdc|]. apply (IH 0 (S j)); [lia|done|done].
    + apply (IH i j); [lia|done|done].
Qed.

Lemma walk_extend items (stuck : string → Prop) c0 :
  (∀ c, stuck c → ∃ d, edge items d c ∧ stuck d) →
  stuck c0 →
  ∀ n, ∃ p, length p = S n ∧ walk items p ∧ Forall stuck p.
Proof.
  intros Hstep Hc0. induction n as [|n (p & Hlen & Hw & Hall)].
  - exists [c0]. split_and!; [done|constructor|by repeat constructor].
  - destruct p as [|c p]; [done|].
    apply Forall_cons in Hall as Hall'. destruct Hall' as [Hc _].
    destruct (Hstep c Hc) as (d & Hdc & Hd).
    exists (d :: c :: p). split_and!.
    + simpl in *. lia.
    + by constructor.
    + by constructor.
Qed.

Lemma stuck_cycle items (stuck : string → Prop) c0 :
  (∀ c, stuck c → ∃ d, edge items d c ∧ stuck d) →
  (∀ c, stuck c → c ∈ names_of items) →
  stuck c0 → has_cycle items.
Proof.
  intros Hstep Hnames Hc0.
  destruct (walk_extend items stuck c0 Hstep Hc0 (length (names_of items)))
    as (p & Hlen & Hw & Hall).
  assert (¬ NoDup p) as Hdup.
  { intros Hnd. assert (length p ≤ length (names_of items)); [|lia].
    apply submseteq_length, NoDup_submseteq; [done|].
    intros x Hx. rewrite Forall_forall in Hall. by apply Hnames, Hall. }
  apply not_NoDup_indices in Hdup as (i & j & x & Hij & Hi & Hj).
  exists x. destruct (decide (i < j)).
  - by apply (walk_tc items p Hw i j).
  - apply (walk_tc items p Hw j i); [lia|done|done].
Qed.

Lemma levels_cycle_inv items msg :
  levels items = Some (Raise (CycleError msg)) →
  deps_resolve items ∧ has_cycle items.
Proof.
  intros Hlev.
  destruct (decide (deps_resolve items)) as [Hres|Hres].
  2:{ apply build_unknown in Hres as (?&?&?&?&?&?&_&_&_&_&_&Hb).
      apply levels_build_raise in Hb. congruence. }
  split; [done|].
  destruct (levels_run items Hres) as (deg & res & Hinv & Hlev').
  destruct (any_positive deg) eqn:Hpos; [|congruence].
  apply any_positive_true in Hpos as (c0 & z & Hc0 & Hz).
  destruct Hinv as [Hdeg _ Hq _ Hp _].
  apply (stuck_cycle items
           (λ c, c ∈ names_of items ∧ c ∉ concat res) c0).
  - intros c [Hc Hnot].
    destruct (remaining_pos items (concat res) c) as (d & Hd & HdP).
    { intros Hz0. eapply not_elem_of_nil. apply Hq. done. }
    exists d. split; [done|]. split; [|done].
    by destruct (edge_names items d c Hres Hd).
  - by intros c [Hc _].
  - rewrite Hdeg in Hc0. case_decide as Hc; [|done]. injection Hc0 as <-.
    split; [done|]. intros [_ Hz0]%Hp. lia.
Qed.

Lemma levels_keyerror_inv items msg :
  levels items = Some (Raise (KeyError msg)) →
  ∃ it d, it ∈ items ∧ d ∈ deps_of it ∧ (d ∉ names_of items)
          ∧ msg = unknown_dep_msg d (_name_of it).
Proof.
  intros Hlev.
  destruct (decide (deps_resolve items)) as [Hres|Hres].
  - destruct (levels_run items Hres) as (deg & res & _ & Hlev').
    rewrite Hlev in Hlev'. by destruct (any_positive deg).
  - apply build_unknown in Hres
      as (pre & it & post & ds1 & d & ds2 & -> & Hdeps & _ & _ & Hd & Hb).
    apply levels_build_raise in Hb. rewrite Hlev in Hb.
    injection Hb as ->. exists it, d. split_and!; try done.
    + rewrite elem_of_app. right. by left.
    + rewrite Hdeps, elem_of_app. right. by left.
Qed.

(** ** The levels are a function of the dependency graph *)

Section graph_ext.
Variables items items' : list Item.
Hypothesis Hnames : ∀ c, c ∈ names_of items ↔ c ∈ names_of items'.
Hypothesis Hedges : ∀ u v, edge items u v ↔ edge items' u v.

Lemma remaining_zero_ext P c :
  remaining items P c = 0 ↔ remaining items' P c = 0.
Proof.
  rewrite !remaining_zero. split; intros H d Hd; apply H; by apply Hedges.
Qed.

Lemma tc_edge_ext u v : tc (edge items) u v → tc (edge items') u v.
Proof.
  induction 1 as [u v Huv|u w v Huw _ IH].
  - apply tc_once. by apply Hedges.
  - eapply tc_l; [|exact IH]. by apply Hedges.
Qed.

Lemma layered_level_ext res res' n lv lv' :
  layered items res → layered items' res' →
  take n res = take n res' →
  res !! n = Some lv → res' !! n = Some lv' → lv = lv'.
Proof.
  intros Hlay Hlay' Htake Hn Hn'.
  destruct (Hlay n lv Hn) as (_ & Hs & Hnd & Hmem).
  destruct (Hlay' n lv' Hn') as (_ & Hs' & Hnd' & Hmem').
  apply (Sorted_unique str_le); [done|done|].
  apply NoDup_Permutation; [done|done|].
  intros c. rewrite Hmem, Hmem', <- Htake, Hnames, remaining_zero_ext. done.
Qed.

Lemma layered_level_missing res res' n lv :
  layered items res →
  (∀ c, c ∈ names_of items' → c ∈ concat res') →
  take n res = take n res' →
  res !! n = Some lv → res' !! n = None → False.
Proof.
  intros Hlay Hcov' Htake Hn Hn'.
  destruct (Hlay n lv Hn) as (Hne & _ & _ & Hmem).
  destruct lv as [|c lv]; [done|].
  destruct (proj1 (Hmem c)) as (Hc & Hnot & _); [by left|].
  apply Hnot. rewrite Htake.
  apply lookup_ge_None in Hn'. rewrite take_ge by done.
  by apply Hcov', Hnames.
Qed.
End graph_ext.

Lemma layered_unique items items' res res' :
  (∀ c, c ∈ names_of items ↔ c ∈ names_of items') →
  (∀ u v, edge items u v ↔ edge items' u v) →
  layered items res → layered items' res' →
  (∀ c, c ∈ names_of items → c ∈ concat res) →
  (∀ c, c ∈ names_of items' → c ∈ concat res') →
  res = res'.
Proof.
  intros Hnames Hedges Hlay Hlay' Hcov Hcov'.
  assert (∀ n, take n res = take n res') as Htake.
  { induction n as [|n IH]; [done|].
    destruct (res !! n) as [lv|] eqn:Hn, (res' !! n) as [lv'|] eqn:Hn'.
    - rewrite (take_S_r _ _ _ Hn), (take_S_r _ _ _ Hn'), IH. f_equal. f_equal.
      by eapply (layered_level_ext items items').
    - destruct (layered_level_missing items items' Hnames res res' n lv);
        done.
    - destruct (layered_level_missing items' items
                  (λ c, symmetry (Hnames c)) res' res n lv'); done.
    - apply lookup_ge_None in Hn, Hn'.
      rewrite !take_ge in IH by lia. by rewrite !take_ge by lia. }
  specialize (Htake (length res `max` length res')).
  by rewrite !take_ge in Htake by lia.
Qed.

Lemma acyclic_ext items items' :
  (∀ u v, edge items u v ↔ edge items' u v) → acyclic items → acyclic items'.
Proof.
  intros Hedges Hacyc c Hc. apply (Hacyc c).
  apply (tc_edge_ext items' items); [|done]. intros u v. by symmetry.
Qed.

Lemma levels_graph_ext_ok items items' res :
  (∀ c, c ∈ names_of items ↔ c ∈ names_of items') →
  (∀ u v, edge items u v ↔ edge items' u v) →
  deps_resolve items' →
  levels items = Some (Ok res) → levels items' = Some (Ok res).
Proof.
  intros Hnames Hedges Hres' Hlev.
  pose proof (levels_ok_acyclic items res Hlev) as Hacyc.
  destruct (acyclic_levels_ok items' Hres' (acyclic_ext _ _ Hedges Hacyc))
    as [res' Hlev'].
  destruct (levels_ok_inv items res Hlev) as (_ & Hlay & _ & Hcov).
  destruct (levels_ok_inv items' res' Hlev') as (_ & Hlay' & _ & Hcov').
  rewrite Hlev'. do 2 f_equal. symmetry.
  apply (layered_unique items items'); try done.
  - intros c. by apply Hcov.
  - intros c. by apply Hcov'.
Qed.

Lemma edge_Exists items u v :
  edge items u v ↔ Exists (λ it, _name_of it = v ∧ u ∈ deps_of it) items.
Proof.
  rewrite Exists_exists. unfold edge. split.
  - intros (it & ? & ? & ?). by exists it.
  - intros (it & ? & ? & ?). by exists it.
Qed.

Lemma levels_cycle_intro items :
  deps_resolve items → has_cycle items →
  levels items = Some (Raise (CycleError "dependency cycle detected")).
Proof.
  intros Hres [c Hc].
  destruct (levels_run items Hres) as (deg & res & _ & Hlev).
  destruct (any_positive deg); [done|].
  by destruct (levels_ok_acyclic items res Hlev c).
Qed.

Lemma length_concat_nonempty {A} (ls : list (list A)) :
  Forall (λ l, l ≠ []) ls → length ls ≤ length (concat ls).
Proof.
  induction 1 as [|l ls Hl _ IH]; simpl; [done|].
  rewrite length_app. destruct l; [done|]. simpl. lia.
Qed.

Lemma layered_nonempty items res : layered items res → Forall (λ l, l ≠ []) res.
Proof.
  intros Hlay. apply Forall_forall. intros lv (i & Hi)%list_elem_of_lookup.
  by destruct (Hlay i lv Hi).
Qed.

(** ** The outcomes of [levels] *)

(** X1.  [levels] returns levels exactly when every dependency resolves
    and the dependency relation has no cycle. *)
Theorem levels_success_iff items :
  (∃ res, levels items = Some (Ok res)) ↔ deps_resolve items ∧ acyclic items.
Proof.
  split.
  - intros [res Hlev]. split.
    + by destruct (levels_ok_inv items res Hlev).
    + by eapply levels_ok_acyclic.
  - intros [Hres Hacyc]. by apply acyclic_levels_ok.
Qed.

(** X2.  [levels] raises [CycleError] exactly when every dependency
    resolves and some name depends on itself through a chain of one or
    more dependencies; the message is always the same. *)
Theorem levels_cycle_error_iff items msg :
  levels items = Some (Raise (CycleError msg))
  ↔ deps_resolve items ∧ has_cycle items ∧ msg = "dependency cycle detected".
Proof.
  split.
  - intros Hlev. destruct (levels_cycle_inv items msg Hlev) as [Hres Hcyc].
    split_and!; [done|done|].
    rewrite (levels_cycle_intro items Hres Hcyc) in Hlev. congruence.
  - intros (Hres & Hcyc & ->). by apply levels_cycle_intro.
Qed.

(** X3.  The only [KeyError] that [levels] raises is the one for an
    unknown dependency: it is raised exactly when some dependency does
    not resolve, and its message names such a dependency and the item
    that lists it.  The dictionary accesses of the loop never fail. *)
Theorem levels_key_error_iff items :
  ((∃ msg, levels items = Some (Raise (KeyError msg))) ↔ ¬ deps_resolve items)
  ∧ (∀ msg, levels items = Some (Raise (KeyError msg)) →
       ∃ it d, it ∈ items ∧ d ∈ deps_of it ∧ (d ∉ names_of items)
               ∧ msg = "unknown dep '" +:+ d +:+ "' for item '"
                       +:+ _name_of it +:+ "'").
Proof.
  split; [split|].
  - intros [msg Hlev] Hres.
    destruct (levels_run items Hres) as (deg & res & _ & Hlev').
    rewrite Hlev in Hlev'. by destruct (any_positive deg).
  - intros Hres.
    apply build_unknown in Hres as (?&?&?&?&?&?&_&_&_&_&_&Hb).
    eexists. by apply levels_build_raise.
  - intros msg Hlev. by apply levels_keyerror_inv.
Qed.

(** X4.  [levels] returns the empty list of levels exactly for the empty
    list of items. *)
Theorem levels_empty_iff items :
  levels items = Some (Ok []) ↔ items = [].
Proof.
  split.
  - intros (_ & _ & _ & Hcov)%levels_ok_inv.
    destruct items as [|it items]; [done|].
    exfalso. eapply not_elem_of_nil. apply (Hcov (_name_of it)).
    apply list_elem_of_fmap_2. by left.
  - intros ->. vm_compute. reflexivity.
Qed.

(** X5.  No level that [levels] returns is empty, and there are at most
    as many levels as items. *)
Theorem levels_nonempty_bounded items res :
  levels items = Some (Ok res) →
  Forall (λ lv, lv ≠ []) res ∧ length res ≤ length items.
Proof.
  intros (_ & Hlay & Hnd & Hcov)%levels_ok_inv.
  pose proof (layered_nonempty items res Hlay) as Hne. split; [done|].
  etrans; [by apply length_concat_nonempty|].
  rewrite <- (length_fmap _name_of items).
  apply submseteq_length, NoDup_submseteq; [done|].
  intros c. apply Hcov.
Qed.

Lemma levels_nonempty_bounded_witness :
  Forall (λ lv, lv ≠ []) [["A"; "C"]; ["B"]]
  ∧ length [["A"; "C"]; ["B"]] ≤ length [itA; itB; itC].
Proof.
  apply (levels_nonempty_bounded [itA; itB; itC]). vm_compute. reflexivity.
Defined.

(** X6.  An item that lists its own resolved name among its [deps] makes
    [levels] raise [CycleError], provided every dependency resolves. *)
Theorem levels_self_dependency items it :
  deps_resolve items →
  it ∈ items →
  _name_of it ∈ deps_of it →
  levels items = Some (Raise (CycleError "dependency cycle detected")).
Proof.
  intros Hres Hit Hself. apply levels_cycle_intro; [done|].
  exists (_name_of it). apply tc_once. by exists it.
Qed.

Lemma levels_self_dependency_witness :
  levels [itSelf] = Some (Raise (CycleError "dependency cycle detected")).
Proof.
  apply (levels_self_dependency [itSelf] itSelf); by_compute.
Defined.

(** X7.  The levels depend on the dependency graph only: two lists of
    items with the same set of resolved names and the same dependency
    edges get the same levels, whatever the order of the items, the
    order of the entries of a [deps] list, or their repetition. *)
Theorem levels_depend_on_graph items items' res :
  (∀ c, c ∈ names_of items ↔ c ∈ names_of items') →
  (∀ u v, edge items u v ↔ edge items' u v) →
  levels items = Some (Ok res) →
  levels items' = Some (Ok res).
Proof.
  intros Hnames Hedges Hlev. apply (levels_graph_ext_ok items); try done.
  destruct (levels_ok_inv items res Hlev) as (Hres & _).
  unfold deps_resolve. rewrite Forall_forall. intros it Hit.
  rewrite Forall_forall. intros d Hd.
  assert (edge items' d (_name_of it)) as Hedge by by exists it.
  apply Hedges in Hedge. apply Hnames.
  by destruct (edge_names items d (_name_of it) Hres Hedge).
Qed.

Lemma levels_depend_on_graph_witness :
  levels [itD_CAA; itC; itA] = Some (Ok [["A"; "C"]; ["D"]]).
Proof.
  apply (levels_depend_on_graph [itA; itC; itD_AC]).
  - intros c.
    change (c ∈ ["A"; "C"; "D"] ↔ c ∈ ["D"; "C"; "A"]).
    rewrite !elem_of_cons, !elem_of_nil. tauto.
  - intros u v. rewrite !edge_Exists, !Exists_cons, !Exists_nil.
    change (deps_of itA) with (@nil string).
    change (deps_of itC) with (@nil string).
    change (deps_of itD_AC) with ["A"; "C"].
    change (deps_of itD_CAA) with ["C"; "A"; "A"].
    change (_name_of itD_AC) with "D". change (_name_of itD_CAA) with "D".
    rewrite !elem_of_cons, !elem_of_nil. tauto.
  - vm_compute. reflexivity.
Defined.

(** X8.  When no item has a dependency, [levels] returns one level: the
    sorted list of the distinct resolved names. *)
Theorem levels_no_deps_single_level items :
  items ≠ [] →
  Forall (λ it, deps_of it = []) items →
  levels items = Some (Ok [sorted (remove_dups (names_of items))]).
Proof.
  intros Hne Hnodeps.
  assert (∀ u v, ¬ edge items u v) as Hnoedge.
  { intros u v (it & Hit & _ & Hu). rewrite Forall_forall in Hnodeps.
    rewrite (Hnodeps it Hit) in Hu. by apply not_elem_of_nil in Hu. }
  assert (deps_resolve items) as Hres.
  { unfold deps_resolve. eapply Forall_impl; [exact Hnodeps|].
    intros it ->. constructor. }
  assert (acyclic items) as Hacyc.
  { intros c Hc. destruct Hc as [c c' Hcc|c c' c'' Hcc _]; by apply Hnoedge in Hcc. }
  destruct (acyclic_levels_ok items Hres Hacyc) as [res Hlev].
  destruct (levels_ok_inv items res Hlev) as (_ & Hlay & _ & Hcov).
  rewrite Hlev. do 2 f_equal.
  apply (layered_unique items items); try done.
  - intros [|i] lv Hi; simpl in Hi; [|by rewrite lookup_nil in Hi].
    injection Hi as <-. split_and!.
    + intros Hnil. destruct items as [|it items]; [done|].
      assert (_name_of it ∈ sorted (remove_dups (names_of (it :: items)))) as Hin.
      { apply sorted_elem_of_2, elem_of_remove_dups. by left. }
      rewrite Hnil in Hin. by apply not_elem_of_nil in Hin.
    + apply sorted_Sorted.
    + rewrite sorted_NoDup. apply NoDup_remove_dups.
    + intros c. rewrite sorted_elem_of, elem_of_remove_dups. simpl.
      rewrite remaining_zero. split.
      * intros Hc. split_and!; [done|apply not_elem_of_nil|].
        intros d Hd. by apply Hnoedge in Hd.
      * by intros [Hc _].
  - intros c. apply Hcov.
  - intros c Hc. simpl. rewrite app_nil_r.
    by apply sorted_elem_of_2, elem_of_remove_dups.
Qed.

Lemma levels_no_deps_single_level_witness :
  levels [itC; itA] = Some (Ok [["A"; "C"]]).
Proof.
  apply (levels_no_deps_single_level [itC; itA]).
  - discriminate.
  - by_compute.
Defined.

(** X9.  When two items share a resolved name the engine treats them as
    one node: on success the levels hold every distinct resolved name
    exactly once. *)
Theorem levels_distinct_names_once items res :
  levels items = Some (Ok res) →
  concat res ≡ₚ remove_dups (names_of items).
Proof.
  intros (_ & _ & Hnd & Hcov)%levels_ok_inv.
  apply NoDup_Permutation; [done|apply NoDup_remove_dups|].
  intros c. by rewrite elem_of_remove_dups.
Qed.

Lemma levels_distinct_names_once_witness :
  concat [["A"]; ["D"]] ≡ₚ remove_dups (names_of [itA; itD_A; itD_A; itA]).
Proof.
  apply (levels_distinct_names_once [itA; itD_A; itD_A; itA]).
  vm_compute. reflexivity.
Defined.

(** * Further properties of the validator *)

(** ** [strip] and blank strings *)

Lemma list_ascii_rev_app s1 s2 :
  list_ascii_of_string (String.rev_app s1 s2)
  = reverse (list_ascii_of_string s1) ++ list_ascii_of_string s2.
Proof.
  revert s2. induction s1 as [|c s1 IH]; intros s2; simpl; [done|].
  rewrite IH, reverse_cons, <- app_assoc. done.
Qed.

Lemma list_ascii_rev s :
  list_ascii_of_string (String.rev s) = reverse (list_ascii_of_string s).
Proof. unfold String.rev. by rewrite list_ascii_rev_app, app_nil_r. Qed.

Lemma blank_rev s : blank (String.rev s) ↔ blank s.
Proof. unfold blank. by rewrite list_ascii_rev, Forall_reverse. Qed.

Lemma rev_empty s : String.rev s = "" → s = "".
Proof.
  intros H. apply (f_equal list_ascii_of_string) in H.
  rewrite list_ascii_rev in H. simpl in H.
  destruct s as [|c s]; [done|]. simpl in H. rewrite reverse_cons in H.
  by destruct (reverse (list_ascii_of_string s)).
Qed.

Lemma lstrip_empty s : lstrip s = "" → blank s.
Proof.
  unfold blank. induction s as [|c s IH]; simpl; [constructor|].
  destruct (is_py_space c) eqn:Hc; [|done].
  intros H. constructor; auto.
Qed.

Lemma lstrip_blank_inv s : blank (lstrip s) → lstrip s = "".
Proof.
  unfold blank. induction s as [|c s IH]; simpl; [done|].
  destruct (is_py_space c) eqn:Hc; [done|].
  simpl. intros [Hc' _]%Forall_cons. congruence.
Qed.

Lemma strip_empty_iff s : strip s = "" ↔ blank s.
Proof.
  split; [|apply strip_blank].
  unfold strip, rstrip. intros H%rev_empty%lstrip_empty.
  apply (proj1 (blank_rev _)) in H.
  apply lstrip_empty. by apply lstrip_blank_inv.
Qed.

(** ** The checks decide the data model *)

Lemma nonempty_str_true v : nonempty_str v = true ↔ nonblank_str v.
Proof.
  unfold nonblank_str. destruct v as [[]|]; simpl;
    try (split; [done|by intros (? & ? & _)]).
  rewrite bool_decide_eq_true, strip_empty_iff. split.
  - intros H. by eexists.
  - by intros (? & [= <-] & ?).
Qed.

Lemma opt_str_true v : opt_str v = true ↔ absent_or_str v.
Proof.
  unfold absent_or_str. destruct v as [[]|]; simpl; split; try done;
    try (by intros [?|[? ?]]); try (intros _; by left).
  intros _. right. by eexists.
Qed.

Lemma dep_ok_true d : dep_ok d = true ↔ ∃ s, d = JStr s ∧ ¬ blank s.
Proof.
  destruct d; simpl; try (split; [done|by intros (? & ? & _)]).
  rewrite bool_decide_eq_true, strip_empty_iff. split.
  - intros H. by eexists.
  - by intros (? & [= <-] & ?).
Qed.

Lemma deps_ok_true v : deps_ok v = true ↔ wf_deps v.
Proof.
  unfold wf_deps. destruct v as [[]|]; simpl;
    try (split; [done|by intros [?|(? & ? & _)]]).
  - rewrite forallb_forall. split.
    + intros H. right. eexists. split; [done|].
      apply Forall_forall. intros d Hd%list_elem_of_In.
      by apply dep_ok_true, H.
    + intros [?|(ds & [= <-] & H)]; [done|]. intros d Hd%list_elem_of_In.
      rewrite Forall_forall in H. by apply dep_ok_true, H.
  - split; [by left|done].
Qed.

Lemma env_ok_true v : env_ok v = true ↔ wf_env v.
Proof.
  unfold wf_env. destruct v as [[| | | | |e]|]; simpl;
    try (split; [done|by intros [?|(? & ? & _)]]).
  - rewrite forallb_forall. split.
    + intros H. right. eexists. split; [done|]. intros k w Hk.
      apply elem_of_map_to_list, list_elem_of_In in Hk.
      specialize (H _ Hk). simpl in H.
      destruct w; try done. by eexists.
    + intros [?|(e' & [= <-] & H)]; [done|]. intros [k w] Hk. simpl.
      apply list_elem_of_In, elem_of_map_to_list in Hk.
      by destruct (H k w Hk) as [s ->].
  - split; [by left|done].
Qed.

Lemma check_gate_None idx gidx g : check_gate idx gidx g = None ↔ wf_gate g.
Proof.
  unfold wf_gate, check_gate. destruct g as [| | | | |o];
    try (split; [done|by intros (? & ? & _)]).
  split.
  - intros H. exists o. split; [done|].
    rewrite <- !nonempty_str_true, <- opt_str_true, <- env_ok_true.
    destruct (nonempty_str (o !! "name")), (nonempty_str (o !! "run")),
      (opt_str (o !! "cwd")), (env_ok (o !! "env")); done.
  - intros (o' & [= <-] & H1 & H2 & H3 & H4).
    apply (proj2 (nonempty_str_true _)) in H1, H2.
    apply (proj2 (opt_str_true _)) in H3.
    apply (proj2 (env_ok_true _)) in H4.
    by rewrite H1, H2, H3, H4.
Qed.

Lemma check_gates_None idx gs : ∀ gidx,
  check_gates idx gidx gs = None ↔ Forall wf_gate gs.
Proof.
  induction gs as [|g gs IH]; intros gidx; simpl; [by split|].
  destruct (check_gate idx gidx g) as [m|] eqn:Hg.
  - split; [done|]. intros [Hg' _]%Forall_cons.
    apply (proj2 (check_gate_None idx gidx g)) in Hg'. congruence.
  - rewrite IH. split.
    + intros H. constructor; [by apply (check_gate_None idx gidx)|done].
    + by intros [_ ?]%Forall_cons.
Qed.

Lemma check_gates_field_None idx v :
  check_gates_field idx v = None ↔ wf_gates v.
Proof.
  unfold wf_gates, check_gates_field. destruct v as [[]|];
    try (split; [done|by intros [?|(? & ? & _)]]).
  - rewrite check_gates_None. split.
    + intros H. right. by eexists.
    + by intros [?|(? & [= <-] & ?)].
  - split; [by left|done].
Qed.

Lemma check_item_inr idx it :
  (∃ n, check_item idx it = inr n) ↔ wf_item it.
Proof.
  unfold wf_item, check_item. destruct it as [| | | | |o];
    try (split; [by intros [? ?]|by intros (? & ? & _)]).
  split.
  - intros [n H]. exists o. split; [done|].
    rewrite <- !nonempty_str_true, <- opt_str_true, <- deps_ok_true,
      <- (check_gates_field_None idx).
    destruct (nonempty_str (o !! "repo")), (nonempty_str (o !! "branch")),
      (opt_str (o !! "name")), (deps_ok (o !! "deps")),
      (check_gates_field idx (o !! "gates")); done.
  - intros (o' & [= <-] & H1 & H2 & H3 & H4 & H5).
    apply (proj2 (nonempty_str_true _)) in H1, H2.
    apply (proj2 (opt_str_true _)) in H3.
    apply (proj2 (deps_ok_true _)) in H4.
    apply (proj2 (check_gates_field_None idx _)) in H5.
    rewrite H1, H2, H3, H4, H5. by eexists.
Qed.

Lemma check_items_inr items : ∀ idx acc,
  (∃ names, check_items idx items acc = inr names) ↔ Forall wf_item items.
Proof.
  induction items as [|it items IH]; intros idx acc; simpl.
  - split; [constructor|by eexists].
  - destruct (check_item idx it) as [msg|n] eqn:Hit.
    + split; [by intros [? ?]|]. intros [Hit' _]%Forall_cons.
      apply (proj2 (check_item_inr idx it)) in Hit' as [n Hn]. congruence.
    + rewrite IH. split.
      * intros H. constructor; [|done]. apply (check_item_inr idx). by eexists.
      * by intros [_ ?]%Forall_cons.
Qed.

Lemma has_duplicates_NoDup l : NoDup l → has_duplicates l = false.
Proof.
  intros Hnd. destruct (has_duplicates l) eqn:Hdup; [|done].
  by apply has_duplicates_true in Hdup.
Qed.

Lemma string_app_assoc (a b c : string) : (a +:+ b) +:+ c = a +:+ b +:+ c.
Proof.
  induction a as [|x a IH]; [done|].
  change (String x ((a +:+ b) +:+ c) = String x (a +:+ b +:+ c)). by f_equal.
Qed.

Lemma gate_path_form idx gidx tail :
  ∃ rest, gate_path idx gidx +:+ tail = "items/" +:+ str_of_nat idx +:+ rest
          ∧ path_rest rest.
Proof.
  unfold gate_path. rewrite !string_app_assoc.
  eexists. split; [reflexivity|]. eexists _, _. split; [reflexivity|by left].
Qed.

Lemma check_gate_error_idx idx gidx g msg :
  check_gate idx gidx g = Some msg →
  ∃ rest, msg = "items/" +:+ str_of_nat idx +:+ rest ∧ path_rest rest.
Proof.
  unfold check_gate.
  destruct g; repeat case_match; intros [= <-]; apply gate_path_form.
Qed.

Lemma check_gates_error_idx idx gs : ∀ gidx msg,
  check_gates idx gidx gs = Some msg →
  ∃ rest, msg = "items/" +:+ str_of_nat idx +:+ rest ∧ path_rest rest.
Proof.
  induction gs as [|g gs IH]; intros gidx msg; simpl; [done|].
  destruct (check_gate idx gidx g) as [m|] eqn:Hg; [|by apply IH].
  intros [= <-]. by eapply check_gate_error_idx.
Qed.

Lemma item_path_form idx tail c t :
  tail = String c t → c = "/"%char ∨ c = ":"%char →
  ∃ rest, ("items/" +:+ str_of_nat idx) +:+ tail
          = "items/" +:+ str_of_nat idx +:+ rest ∧ path_rest rest.
Proof.
  intros -> Hc. rewrite string_app_assoc.
  eexists. split; [reflexivity|]. by eexists _, _.
Qed.

Lemma check_item_error_idx idx it msg :
  check_item idx it = inl msg →
  ∃ rest, msg = "items/" +:+ str_of_nat idx +:+ rest ∧ path_rest rest.
Proof.
  assert (∃ rest, "items/" +:+ str_of_nat idx +:+ ": expected object"
                  = "items/" +:+ str_of_nat idx +:+ rest ∧ path_rest rest)
    as Hobj.
  { eexists. split; [reflexivity|]. eexists _, _. split; [reflexivity|by right]. }
  unfold check_item. destruct it as [| | | | |o];
    try (intros [= <-]; exact Hobj).
  destruct (nonempty_str (o !! "repo")); simpl;
    [|intros [= <-]; eapply item_path_form; [reflexivity|by left]].
  destruct (nonempty_str (o !! "branch")); simpl;
    [|intros [= <-]; eapply item_path_form; [reflexivity|by left]].
  destruct (opt_str (o !! "name")); simpl;
    [|intros [= <-]; eapply item_path_form; [reflexivity|by left]].
  destruct (deps_ok (o !! "deps")); simpl;
    [|intros [= <-]; eapply item_path_form; [reflexivity|by left]].
  destruct (check_gates_field idx (o !! "gates")) as [m|] eqn:Hg; [|done].
  intros [= <-]. unfold check_gates_field in Hg.
  destruct (o !! "gates") as [[]|]; try done;
    try (injection Hg as <-; eexists; split; [reflexivity|];
         eexists _, _; split; [reflexivity|by left]).
  by eapply check_gates_error_idx.
Qed.

Lemma check_items_first_bad pre it post idx acc msg :
  Forall wf_item pre →
  check_item (idx + length pre) it = inl msg →
  check_items idx (pre ++ it :: post) acc = inl msg.
Proof.
  intros Hpre Hit. rewrite check_items_app.
  rewrite (check_items_all pre idx acc).
  - simpl. by rewrite Hit.
  - intros k it' Hk. apply check_item_inr.
    rewrite Forall_forall in Hpre. apply Hpre.
    apply list_elem_of_lookup. by exists k.
Qed.

Lemma check_gates_first_bad idx pre g post : ∀ gidx msg,
  Forall wf_gate pre →
  check_gate idx (gidx + length pre) g = Some msg →
  check_gates idx gidx (pre ++ g :: post) = Some msg.
Proof.
  induction pre as [|g0 pre IH]; intros gidx msg Hpre Hg; simpl in *.
  - rewrite Nat.add_0_r in Hg. by rewrite Hg.
  - apply Forall_cons in Hpre as [Hg0 Hpre].
    apply (proj2 (check_gate_None idx gidx g0)) in Hg0. rewrite Hg0.
    apply IH; [done|]. by replace (S gidx + length pre) with (gidx + S (length pre)) by lia.
Qed.

Lemma check_items_replace pre a b post idx acc :
  (∀ i, check_item i a = check_item i b) →
  check_items idx (pre ++ a :: post) acc = check_items idx (pre ++ b :: post) acc.
Proof.
  intros Hab. rewrite !check_items_app.
  destruct (check_items idx pre acc); [done|]. simpl. by rewrite Hab.
Qed.

Lemma fallback_validate_plan o items :
  nonempty_str (o !! "target") = true →
  o !! "items" = Some (JArr items) →
  _fallback_validate (JObj o) =
    match check_items 0 items [] with
    | inl msg => (false, Some msg)
    | inr names =>
        if has_duplicates names then (false, Some duplicate_msg) else (true, None)
    end.
Proof.
  intros Ht Hi. unfold _fallback_validate.
  by rewrite (shape_checks_plan o items Ht Hi).
Qed.

Lemma names_of_items_of_json items :
  Forall wf_item items → names_of (items_of_json items) = item_name <$> items.
Proof.
  intros Hwf. unfold names_of, items_of_json. rewrite <- list_fmap_compose.
  apply Forall_fmap_ext_1. eapply Forall_impl; [exact Hwf|].
  intros it (o & -> & _). simpl. apply name_of_item_of_json.
Qed.

Lemma shape_checks_lookup o o' :
  o' !! "target" = o !! "target" → o' !! "items" = o !! "items" →
  shape_checks (JObj o') = shape_checks (JObj o).
Proof. intros Ht Hi. unfold shape_checks. by rewrite Ht, Hi. Qed.

Lemma shape_checks_items o items items' :
  o !! "items" = Some (JArr items) →
  check_items 0 items' [] = check_items 0 items [] →
  shape_checks (JObj (<["items" := JArr items']> o)) = shape_checks (JObj o).
Proof.
  intros Hi Hchk. unfold shape_checks.
  rewrite lookup_insert_ne by done. rewrite lookup_insert_eq, Hi, Hchk. done.
Qed.

Lemma check_item_unknown_field idx o k v :
  k ≠ "repo" → k ≠ "branch" → k ≠ "name" → k ≠ "deps" → k ≠ "gates" →
  check_item idx (JObj (<[k := v]> o)) = check_item idx (JObj o).
Proof.
  intros. unfold check_item, resolved_name, str_at.
  by rewrite !lookup_insert_ne by done.
Qed.

Lemma check_item_deps idx o ds' :
  wf_deps (o !! "deps") →
  Forall (λ d, ∃ s, d = JStr s ∧ ¬ blank s) ds' →
  check_item idx (JObj (<["deps" := JArr ds']> o)) = check_item idx (JObj o).
Proof.
  intros Hdeps Hds'.
  apply (proj2 (deps_ok_true _)) in Hdeps.
  assert (deps_ok (Some (JArr ds')) = true) as Hdeps'.
  { apply deps_ok_true. right. by eexists. }
  unfold check_item, resolved_name, str_at.
  rewrite lookup_insert_eq, Hdeps, Hdeps'.
  by rewrite !lookup_insert_ne by done.
Qed.

(** ** What the validator accepts and what it reports *)

(** X10.  The fallback validator accepts a document exactly when it fits
    the data model of a plan: an object with a non-blank [target] and an
    array of items, each an object with non-blank [repo] and [branch], a
    [name] that is absent or a string, [deps] absent or an array of
    non-blank strings, [gates] absent or an array of gates (non-blank
    [name] and [run], [cwd] absent or a string, [env] absent or an
    object with string values), no two items sharing a resolved name. *)
Theorem fallback_accepts_iff data :
  _fallback_validate data = (true, None) ↔ wf_plan data.
Proof.
  split.
  - unfold _fallback_validate.
    destruct (shape_checks data) as [msg|names] eqn:Hshape; [done|].
    destruct (has_duplicates names) eqn:Hdup; [done|]. intros _.
    apply shape_checks_ok in Hshape as (o & items & -> & Ht & Hi & Hchk).
    exists o, items. split_and!; [done|by apply nonempty_str_true|done| |].
    + apply (check_items_inr items 0 []). by eexists.
    + apply check_items_names in Hchk as [-> _]. simpl in Hdup.
      apply not_true_iff_false in Hdup. rewrite has_duplicates_true in Hdup.
      by apply dec_stable.
  - intros (o & items & -> & Ht & Hi & Hwf & Hnd).
    apply nonempty_str_true in Ht.
    rewrite (fallback_validate_plan o items Ht Hi).
    rewrite (check_items_all items 0 []).
    + simpl. by rewrite has_duplicates_NoDup.
    + intros k it Hk. apply check_item_inr.
      rewrite Forall_forall in Hwf. apply Hwf, list_elem_of_lookup. by exists k.
Qed.

(** X11.  Validation stops at the first item that does not fit the data
    model: the verdict is an error whose path starts with that item's
    index, and nothing that follows the item changes the verdict. *)
Theorem fallback_stops_at_first_bad_item o o' pre it post post' :
  nonempty_str (o !! "target") = true →
  o' !! "target" = o !! "target" →
  o !! "items" = Some (JArr (pre ++ it :: post)) →
  o' !! "items" = Some (JArr (pre ++ it :: post')) →
  Forall wf_item pre →
  ¬ wf_item it →
  _fallback_validate (JObj o') = _fallback_validate (JObj o)
  ∧ ∃ rest, _fallback_validate (JObj o)
            = (false, Some ("items/" +:+ str_of_nat (length pre) +:+ rest))
            ∧ path_rest rest.
Proof.
  intros Ht Ht' Hi Hi' Hpre Hbad.
  destruct (check_item (length pre) it) as [msg|n] eqn:Hit.
  2:{ destruct Hbad. apply (check_item_inr (length pre)). by eexists. }
  rewrite (fallback_validate_plan o _ Ht Hi).
  rewrite (fallback_validate_plan o' (pre ++ it :: post')); [|congruence|done].
  rewrite !(check_items_first_bad pre it _ 0 [] msg) by done.
  split; [done|].
  destruct (check_item_error_idx _ _ _ Hit) as (rest & -> & Hrest).
  by exists rest.
Qed.

Lemma fallback_stops_at_first_bad_item_witness :
  _fallback_validate
    (JObj (plan_of [JObj (item_named "r" "a" "A"); JNull; JBool true]))
  = _fallback_validate (JObj (plan_of [JObj (item_named "r" "a" "A"); JNull]))
  ∧ ∃ rest, _fallback_validate
              (JObj (plan_of [JObj (item_named "r" "a" "A"); JNull]))
            = (false, Some ("items/" +:+ "1" +:+ rest))
            ∧ path_rest rest.
Proof.
  apply (fallback_stops_at_first_bad_item
           (plan_of [JObj (item_named "r" "a" "A"); JNull])
           (plan_of [JObj (item_named "r" "a" "A"); JNull; JBool true])
           [JObj (item_named "r" "a" "A")] JNull [] [JBool true]).
  - vm_compute. reflexivity.
  - vm_compute. reflexivity.
  - vm_compute. reflexivity.
  - vm_compute. reflexivity.
  - constructor; [|constructor]. apply (check_item_inr 0). eexists.
    vm_compute. reflexivity.
  - by intros (? & ? & _).
Defined.

(** X12.  The checks of the document itself come first.  A document
    that is not an object is answered ["<root>: expected object"]; an
    object whose [target] is missing, not a string or blank is answered
    ["target: required non-empty string"] whatever its [items] are; with
    a valid [target], [items] that is missing or not an array is
    answered ["items: required array"]. *)
Theorem fallback_root_errors :
  (∀ data, (∀ o, data ≠ JObj o) →
     _fallback_validate data = (false, Some "<root>: expected object"))
  ∧ (∀ o, ¬ nonblank_str (o !! "target") →
       _fallback_validate (JObj o)
       = (false, Some "target: required non-empty string"))
  ∧ (∀ o, nonblank_str (o !! "target") →
       (∀ items, o !! "items" ≠ Some (JArr items)) →
       _fallback_validate (JObj o) = (false, Some "items: required array")).
Proof.
  split_and!.
  - intros data Hdata. destruct data; try done. by destruct (Hdata o).
  - intros o Ht. unfold _fallback_validate, shape_checks.
    destruct (nonempty_str (o !! "target")) eqn:Hne; [|done].
    by apply nonempty_str_true in Hne.
  - intros o Ht%nonempty_str_true Hi. unfold _fallback_validate, shape_checks.
    rewrite Ht. simpl. destruct (o !! "items") as [[]|]; try done.
    by destruct (Hi l).
Qed.

Lemma fallback_root_errors_witness :
  _fallback_validate (JArr []) = (false, Some "<root>: expected object")
  ∧ _fallback_validate (jobj [("target", JStr " "); ("items", JNum 3)])
    = (false, Some "target: required non-empty string")
  ∧ _fallback_validate (jobj [("target", JStr "main"); ("items", JNum 3)])
    = (false, Some "items: required array").
Proof.
  destruct fallback_root_errors as (Hroot & Htarget & Hitems). split_and!.
  - by apply Hroot.
  - apply Htarget. intros (s & [= <-] & Hs). apply Hs. by repeat constructor.
  - apply Hitems.
    + exists "main". split; [reflexivity|]. intros Hb.
      apply Forall_cons in Hb as [Hb _]. vm_compute in Hb. discriminate.
    + intros items. vm_compute. discriminate.
Defined.

(** X13.  A gate whose [env] is not an object of strings: when every
    check before it passes (the [target], the items before the item, the
    item's [repo], [branch], [name] and [deps], the gates before the
    gate, the gate's [name], [run] and [cwd]), the verdict is
    ["items/<idx>/gates/<gidx>/env: expected object of string->string"]. *)
Theorem fallback_gate_env_error o pre oi post gpre g gpost :
  nonblank_str (o !! "target") →
  o !! "items" = Some (JArr (pre ++ JObj oi :: post)) →
  Forall wf_item pre →
  nonblank_str (oi !! "repo") → nonblank_str (oi !! "branch") →
  absent_or_str (oi !! "name") → wf_deps (oi !! "deps") →
  oi !! "gates" = Some (JArr (gpre ++ JObj g :: gpost)) →
  Forall wf_gate gpre →
  nonblank_str (g !! "name") → nonblank_str (g !! "run") →
  absent_or_str (g !! "cwd") →
  ¬ wf_env (g !! "env") →
  _fallback_validate (JObj o)
  = (false, Some ("items/" +:+ str_of_nat (length pre) +:+ "/gates/"
                  +:+ str_of_nat (length gpre)
                  +:+ "/env: expected object of string->string")).
Proof.
  intros Ht%nonempty_str_true Hi Hpre Hrepo%nonempty_str_true
    Hbranch%nonempty_str_true Hname%opt_str_true Hdeps%deps_ok_true
    Hgates Hgpre Hgname%nonempty_str_true Hgrun%nonempty_str_true
    Hcwd%opt_str_true Henv.
  assert (env_ok (g !! "env") = false) as Henv'.
  { destruct (env_ok (g !! "env")) eqn:He; [|done].
    by apply env_ok_true in He. }
  rewrite (fallback_validate_plan o _ Ht Hi).
  erewrite check_items_first_bad; [done|done|].
  unfold check_item. rewrite Hrepo, Hbranch, Hname, Hdeps, Hgates. simpl.
  erewrite check_gates_first_bad; [|done|].
  - reflexivity.
  - unfold check_gate. rewrite Hgname, Hgrun, Hcwd, Henv'. simpl.
    unfold gate_path. by rewrite !string_app_assoc.
Qed.

Lemma fallback_gate_env_error_witness :
  _fallback_validate (JObj (plan_of [JObj item_env_number]))
  = (false, Some "items/0/gates/0/env: expected object of string->string").
Proof.
  apply (fallback_gate_env_error (plan_of [JObj item_env_number])
           [] item_env_number [] [] gate_env_number []).
  all: try (vm_compute; reflexivity).
  all: try (eexists; split; [vm_compute; reflexivity|];
            intros Hb; apply Forall_cons in Hb as [Hb _];
            vm_compute in Hb; discriminate).
  - constructor.
  - right. by eexists.
  - left. vm_compute. reflexivity.
  - constructor.
  - left. vm_compute. reflexivity.
  - intros [He|(e & He & Hall)]; [vm_compute in He; discriminate|].
    vm_compute in He. injection He as <-.
    destruct (Hall "A" (JNum 1)) as [s Hs]; [vm_compute; reflexivity|done].
Defined.

(** X14.  Fields the validator does not know are ignored: adding to the
    document a field other than [target] and [items], or to an item a
    field other than [repo], [branch], [name], [deps] and [gates], does
    not change the verdict. *)
Theorem fallback_ignores_unknown_fields o :
  (∀ k v, k ≠ "target" → k ≠ "items" →
     _fallback_validate (JObj (<[k := v]> o)) = _fallback_validate (JObj o))
  ∧ (∀ pre oi post k v,
       o !! "items" = Some (JArr (pre ++ JObj oi :: post)) →
       k ≠ "repo" → k ≠ "branch" → k ≠ "name" → k ≠ "deps" → k ≠ "gates" →
       _fallback_validate
         (JObj (<["items" := JArr (pre ++ JObj (<[k := v]> oi) :: post)]> o))
       = _fallback_validate (JObj o)).
Proof.
  split.
  - intros k v Hkt Hki. unfold _fallback_validate.
    rewrite (shape_checks_lookup o (<[k := v]> o)); [done| |];
      by rewrite lookup_insert_ne.
  - intros pre oi post k v Hi ? ? ? ? ?. unfold _fallback_validate.
    rewrite (shape_checks_items o _ _ Hi); [done|].
    apply check_items_replace. intros i.
    by apply check_item_unknown_field.
Qed.

Lemma fallback_ignores_unknown_fields_witness :
  _fallback_validate
    (JObj (<["items" := JArr ([] ++ JObj (<["labels" := JArr []]>
                                            (item_named "r" "a" "A")) :: [])]>
             (plan_of [JObj (item_named "r" "a" "A")])))
  = _fallback_validate (JObj (plan_of [JObj (item_named "r" "a" "A")])).
Proof.
  destruct (fallback_ignores_unknown_fields
              (plan_of [JObj (item_named "r" "a" "A")])) as [_ Hitem].
  apply Hitem; [vm_compute; reflexivity|done..].
Defined.

(** X15.  The validator never looks at which names [deps] mention:
    replacing the valid [deps] of an item by any other array of
    non-blank strings leaves the verdict unchanged, so a dependency on a
    name that no item has is accepted. *)
Theorem fallback_ignores_dep_names o pre oi post ds' :
  o !! "items" = Some (JArr (pre ++ JObj oi :: post)) →
  wf_deps (oi !! "deps") →
  Forall (λ d, ∃ s, d = JStr s ∧ ¬ blank s) ds' →
  _fallback_validate
    (JObj (<["items" := JArr (pre ++ JObj (<["deps" := JArr ds']> oi) :: post)]> o))
  = _fallback_validate (JObj o).
Proof.
  intros Hi Hdeps Hds'. unfold _fallback_validate.
  rewrite (shape_checks_items o _ _ Hi); [done|].
  apply check_items_replace. intros i. by apply check_item_deps.
Qed.

Lemma fallback_ignores_dep_names_witness :
  _fallback_validate
    (JObj (<["items" := JArr ([] ++ JObj (<["deps" := JArr [JStr "nowhere"]]>
                                            (item_named "r" "a" "A")) :: [])]>
             (plan_of [JObj (item_named "r" "a" "A")])))
  = _fallback_validate (JObj (plan_of [JObj (item_named "r" "a" "A")])).
Proof.
  apply (fallback_ignores_dep_names _ [] (item_named "r" "a" "A") []).
  - vm_compute. reflexivity.
  - left. vm_compute. reflexivity.
  - constructor; [|constructor]. exists "nowhere". split; [done|].
    intros Hb. apply Forall_cons in Hb as [Hb _]. vm_compute in Hb. discriminate.
Defined.

(** ** From the validator to the engine *)

(** X16.  For a document the fallback validator accepts, the engine,
    reading the same items, resolves the same names as the validator,
    and they are unique; when moreover every dependency resolves and
    there is no cycle, [levels] returns levels that hold exactly these
    names, each once. *)
Theorem validated_plan_levels o items :
  _fallback_validate (JObj o) = (true, None) →
  o !! "items" = Some (JArr items) →
  names_of (items_of_json items) = item_name <$> items
  ∧ unique_names (items_of_json items)
  ∧ (deps_resolve (items_of_json items) → acyclic (items_of_json items) →
     ∃ res, levels (items_of_json items) = Some (Ok res)
            ∧ concat res ≡ₚ item_name <$> items).
Proof.
  intros (o' & items' & [= <-] & _ & Hi' & Hwf & Hnd)%fallback_accepts_iff Hi.
  rewrite Hi in Hi'. injection Hi' as <-.
  pose proof (names_of_items_of_json items Hwf) as Hnames.
  split_and!; [done|by unfold unique_names; rewrite Hnames|].
  intros Hres Hacyc.
  destruct (acyclic_levels_ok _ Hres Hacyc) as [res Hlev].
  exists res. split; [done|].
  destruct (levels_ok_inv _ res Hlev) as (_ & _ & Hndres & Hcov).
  rewrite <- Hnames. apply NoDup_Permutation; [done| |done].
  by rewrite Hnames.
Qed.

Lemma validated_plan_levels_witness :
  names_of (items_of_json plan_AB) = item_name <$> plan_AB
  ∧ unique_names (items_of_json plan_AB)
  ∧ (deps_resolve (items_of_json plan_AB) → acyclic (items_of_json plan_AB) →
     ∃ res, levels (items_of_json plan_AB) = Some (Ok res)
            ∧ concat res ≡ₚ item_name <$> plan_AB).
Proof.
  apply (validated_plan_levels (plan_of plan_AB)).
  - vm_compute. reflexivity.
  - vm_compute. reflexivity.
Defined.

(** X17.  The error for an item, when the [target] is valid and the
    items before it fit the data model: an item that is not an object is
    answered ["items/<idx>: expected object"]; an object whose [repo] is
    missing, not a string or blank is answered for [repo], whatever its
    other fields are; with valid [repo] and [branch], a [name] that is
    present and not a string is answered for [name]; with these and
    [deps] valid, [gates] that is present and not an array is answered
    for [gates]. *)
Theorem fallback_item_errors o pre it post :
  nonblank_str (o !! "target") →
  o !! "items" = Some (JArr (pre ++ it :: post)) →
  Forall wf_item pre →
  ((∀ oi, it ≠ JObj oi) →
     _fallback_validate (JObj o)
     = (false, Some ("items/" +:+ str_of_nat (length pre) +:+ ": expected object")))
  ∧ (∀ oi, it = JObj oi → ¬ nonblank_str (oi !! "repo") →
       _fallback_validate (JObj o)
       = (false, Some ("items/" +:+ str_of_nat (length pre)
                       +:+ "/repo: required non-empty string")))
  ∧ (∀ oi, it = JObj oi →
       nonblank_str (oi !! "repo") → nonblank_str (oi !! "branch") →
       ¬ absent_or_str (oi !! "name") →
       _fallback_validate (JObj o)
       = (false, Some ("items/" +:+ str_of_nat (length pre)
                       +:+ "/name: expected string")))
  ∧ (∀ oi w, it = JObj oi →
       nonblank_str (oi !! "repo") → nonblank_str (oi !! "branch") →
       absent_or_str (oi !! "name") → wf_deps (oi !! "deps") →
       oi !! "gates" = Some w → (∀ gs, w ≠ JArr gs) →
       _fallback_validate (JObj o)
       = (false, Some ("items/" +:+ str_of_nat (length pre)
                       +:+ "/gates: expected array"))).
Proof.
  intros Ht%nonempty_str_true Hi Hpre.
  assert (∀ msg, check_item (length pre) it = inl msg →
                 _fallback_validate (JObj o) = (false, Some msg)) as Hfirst.
  { intros msg Hit. rewrite (fallback_validate_plan o _ Ht Hi).
    by rewrite (check_items_first_bad pre it post 0 [] msg). }
  split_and!.
  - intros Hnot. apply Hfirst. destruct it; try done. by destruct (Hnot o0).
  - intros oi -> Hrepo. apply Hfirst. unfold check_item.
    destruct (nonempty_str (oi !! "repo")) eqn:Hr.
    + by apply nonempty_str_true in Hr.
    + simpl. by rewrite string_app_assoc.
  - intros oi -> Hrepo%nonempty_str_true Hbranch%nonempty_str_true Hname.
    apply Hfirst. unfold check_item. rewrite Hrepo, Hbranch. simpl.
    destruct (opt_str (oi !! "name")) eqn:Hn.
    + by apply opt_str_true in Hn.
    + simpl. by rewrite string_app_assoc.
  - intros oi w -> Hrepo%nonempty_str_true Hbranch%nonempty_str_true
      Hname%opt_str_true Hdeps%deps_ok_true Hgates Hw.
    apply Hfirst. unfold check_item.
    rewrite Hrepo, Hbranch, Hname, Hdeps, Hgates. simpl.
    destruct w; try done. by destruct (Hw l).
Qed.

Lemma fallback_item_errors_witness :
  _fallback_validate (JObj (plan_of [JObj (item_named "r" "a" "A"); JObj ∅]))
  = (false, Some "items/1/repo: required non-empty string").
Proof.
  destruct (fallback_item_errors
              (plan_of [JObj (item_named "r" "a" "A"); JObj ∅])
              [JObj (item_named "r" "a" "A")] (JObj ∅) [])
    as (_ & Hrepo & _).
  - exists "main". split; [reflexivity|]. intros Hb.
    apply Forall_cons in Hb as [Hb _]. vm_compute in Hb. discriminate.
  - vm_compute. reflexivity.
  - constructor; [|constructor]. apply (check_item_inr 0). eexists.
    vm_compute. reflexivity.
  - apply (Hrepo ∅); [done|]. by intros (s & Hs & _).
Defined.
